(** * timehelper: the Interval value type of apaxa-io/timehelper

    A shallow embedding of [interval.go].  An [Interval] has two [int32]
    fields and one [float64] field.  The integer fields are modelled as [Z]
    with Go's two's complement wrap-around written out; the float field is a
    [spec_float] at binary64 parameters, with the IEEE 754 operations of
    the standard library's executable specification. *)

From Stdlib Require Import ZArith Lia Bool List Ascii String DecimalString.
From Stdlib Require Import Floats.SpecFloat.
Import ListNotations.

Local Open Scope Z_scope.

(** ** Fixed-width integers *)

Module Int.

(** Reduction of an integer to the signed range of [bits] bits, as Go's
    integer arithmetic and integer-to-integer conversions do. *)
Definition wrap (bits : Z) (z : Z) : Z :=
  (z + 2 ^ (bits - 1)) mod 2 ^ bits - 2 ^ (bits - 1).

Definition in_range (bits : Z) (z : Z) : Prop :=
  - 2 ^ (bits - 1) <= z < 2 ^ (bits - 1).

Definition in_rangeb (bits : Z) (z : Z) : bool :=
  (- 2 ^ (bits - 1) <=? z) && (z <? 2 ^ (bits - 1)).

Definition wrap32 := wrap 32.
Definition wrap64 := wrap 64.

End Int.

(** ** float64 *)

Module F64.

Definition prec : Z := 53.
Definition emax : Z := 1024.

Definition float64 := spec_float.

Definition zero : float64 := S754_zero false.

Definition add : float64 -> float64 -> float64 := SFadd prec emax.
Definition sub : float64 -> float64 -> float64 := SFsub prec emax.
Definition mul : float64 -> float64 -> float64 := SFmul prec emax.
Definition div : float64 -> float64 -> float64 := SFdiv prec emax.
Definition neg : float64 -> float64 := SFopp.

(** Go's comparison operators on floats: every comparison with a NaN
    is false. *)
Definition eqb : float64 -> float64 -> bool := SFeqb.
Definition ltb : float64 -> float64 -> bool := SFltb.
Definition leb : float64 -> float64 -> bool := SFleb.
Definition geb (x y : float64) : bool :=
  match SFcompare x y with
  | Some (Gt | Eq) => true
  | _ => false
  end.

(** [float64(z)] for an integer [z]: the nearest float, ties to even. *)
Definition of_Z (z : Z) : float64 := binary_normalize prec emax z 0 false.

(** The value of [n / d] for integers [n] and [d > 0], rounded to the
    nearest float, ties to even. *)
Definition of_ratio (n : Z) (d : positive) : float64 :=
  match n with
  | Z0 => zero
  | Zpos p =>
      let '(q, e, l) := SFdiv_core_binary prec emax (Zpos p) 0 (Zpos d) 0 in
      binary_round_aux prec emax false q e l
  | Zneg p =>
      let '(q, e, l) := SFdiv_core_binary prec emax (Zpos p) 0 (Zpos d) 0 in
      binary_round_aux prec emax true q e l
  end.

(** The integer part of a float, the fraction discarded (towards zero).
    [None] for NaN and the infinities. *)
Definition trunc (x : float64) : option Z :=
  match x with
  | S754_zero _ => Some 0
  | S754_finite s m e =>
      let a := match e with
               | Zneg k => Zpos m / 2 ^ Zpos k
               | _ => Zpos m * 2 ^ e
               end in
      Some (if s then - a else a)
  | _ => None
  end.

(** The largest integer not above a float.  [None] for NaN and the
    infinities. *)
Definition floor (x : float64) : option Z :=
  match x with
  | S754_zero _ => Some 0
  | S754_finite s m e =>
      let n := if s then Zneg m else Zpos m in
      Some match e with
           | Zneg k => n / 2 ^ Zpos k
           | _ => n * 2 ^ e
           end
  | _ => None
  end.

(** A float below zero that is not a whole number. *)
Definition negative_fraction (x : float64) : bool :=
  match x with
  | S754_finite true m (Zneg k) => negb (Zpos m mod 2 ^ Zpos k =? 0)
  | _ => false
  end.

(** A conversion [intN(x)] of a float to a signed integer type of [bits]
    bits.  The Go specification discards the fraction; when the value
    does not fit the result type (also NaN and the infinities) the
    conversion succeeds with an implementation-dependent value, which is
    [None] here. *)
Definition to_int (bits : Z) (x : float64) : option Z :=
  match trunc x with
  | Some z => if Int.in_rangeb bits z then Some z else None
  | None => None
  end.

End F64.

Import F64.

(** ** The Interval type *)

Record Interval := mkInterval {
  Months : Z;          (* int32 *)
  Days : Z;            (* int32 *)
  Seconds : float64
}.

(** The zero value of the struct. *)
Definition zeroInterval : Interval := mkInterval 0 0 zero.

(** The fields of a value of the Go type lie in int32. *)
Definition wf (i : Interval) : Prop :=
  Int.in_range 32 (Months i) /\ Int.in_range 32 (Days i).

(** ** Arithmetic *)

Definition Add (i add : Interval) : Interval :=
  let i := mkInterval (Int.wrap32 (Months i + Months add)) (Days i) (Seconds i) in
  let i := mkInterval (Months i) (Int.wrap32 (Days i + Days add)) (Seconds i) in
  let i := mkInterval (Months i) (Days i) (F64.add (Seconds i) (Seconds add)) in
  i.

Definition Sub (i sub : Interval) : Interval :=
  let i := mkInterval (Int.wrap32 (Months i - Months sub)) (Days i) (Seconds i) in
  let i := mkInterval (Months i) (Int.wrap32 (Days i - Days sub)) (Seconds i) in
  let i := mkInterval (Months i) (Days i) (F64.sub (Seconds i) (Seconds sub)) in
  i.

(** ** Ordering *)

Definition Equal (i i2 : Interval) : bool :=
  (Months i =? Months i2) && (Days i =? Days i2) && F64.eqb (Seconds i) (Seconds i2).

Definition LessOrEqual (i i2 : Interval) : bool :=
  (Months i <=? Months i2) && (Days i <=? Days i2) && F64.leb (Seconds i) (Seconds i2).

Definition GreaterOrEqual (i i2 : Interval) : bool :=
  (Months i >=? Months i2) && (Days i >=? Days i2) && F64.geb (Seconds i) (Seconds i2).

Definition Less (i i2 : Interval) : bool :=
  negb (Equal i i2) && LessOrEqual i i2.

Definition Greater (i i2 : Interval) : bool :=
  negb (Equal i i2) && GreaterOrEqual i i2.

Definition Comparable (i i2 : Interval) : bool :=
  LessOrEqual i i2 || GreaterOrEqual i i2.

(** ** Strings

    A Go string is a sequence of bytes; [string] is the same. *)

Local Open Scope string_scope.

Module Bytes.

Definition byte_in (lo hi : N) (c : ascii) : bool :=
  let n := N_of_ascii c in (N.leb lo n && N.leb n hi)%bool.

Definition is_digit (c : ascii) : bool := byte_in 48 57 c.

Definition is_sign (c : ascii) : bool :=
  (Ascii.eqb c "+" || Ascii.eqb c "-")%bool.

Definition digit_val (c : ascii) : Z := Z.of_N (N_of_ascii c) - 48.

Fixpoint drop (n : nat) (s : string) : string :=
  match n, s with
  | S n', String _ s' => drop n' s'
  | _, _ => s
  end.

(** [s[a:b]] *)
Definition slice (s : string) (a b : nat) : string := substring a (b - a) s.

End Bytes.

(** ** UTF-8

    The regexp package reads its input rune by rune.  [rune_len s] is the
    number of bytes of the first rune of a non-empty [s], as
    [utf8.DecodeRuneInString] reports it: the length of a well-formed
    encoding, and 1 for a byte that starts none (decoded as U+FFFD). *)

Module Utf8.
Import Bytes.

Definition cont (lo hi : N) (s : string) : option string :=
  match s with
  | String c s' => if byte_in lo hi c then Some s' else None
  | EmptyString => None
  end.

Definition conts (ranges : list (N * N)) (s : string) : bool :=
  match
    fold_left (fun acc r => match acc with
                            | Some t => cont (fst r) (snd r) t
                            | None => None
                            end) ranges (Some s)
  with
  | Some _ => true
  | None => false
  end.

Definition rune_len (s : string) : nat :=
  match s with
  | EmptyString => 0
  | String c rest =>
      let tail := (128, 191)%N in
      let b := N_of_ascii c in
      if (b <? 128)%N then 1
      else if byte_in 194 223 c then if conts [tail] rest then 2 else 1
      else if (b =? 224)%N then if conts [(160, 191)%N; tail] rest then 3 else 1
      else if (byte_in 225 236 c || byte_in 238 239 c)%bool
           then if conts [tail; tail] rest then 3 else 1
      else if (b =? 237)%N then if conts [(128, 159)%N; tail] rest then 3 else 1
      else if (b =? 240)%N then if conts [(144, 191)%N; tail; tail] rest then 4 else 1
      else if byte_in 241 243 c then if conts [tail; tail; tail] rest then 4 else 1
      else if (b =? 244)%N then if conts [(128, 143)%N; tail; tail] rest then 4 else 1
      else 1%nat
  end.

End Utf8.

(** ** Regular expressions

    The syntax the pattern [re] uses, and a backtracking matcher for it.
    Go's regexp package returns, among the leftmost matches, the one a
    backtracking search finds first; the matcher below is that search,
    with the alternatives tried in the order of preference ([r?] and [r+]
    are greedy, [r1|r2] prefers [r1]). *)

Module Regexp.
Import Bytes.

Inductive regex :=
| Lit (lit : string)              (* literal text *)
| Class (p : ascii -> bool)       (* a class of one-byte runes, as [0-9] *)
| AnyChar                         (* [.]: any rune but a newline *)
| Cat (r1 r2 : regex)
| Alt (r1 r2 : regex)
| Opt (r : regex)                 (* [r?] *)
| Plus (r : regex)                (* [r+] *)
| Group (n : nat) (r : regex)     (* capturing group number [n] *)
| NoGroup (r : regex)             (* [(?:r)] *)
| Bol                             (* [^], without the m flag: start of text *)
| Eol.                            (* [$], without the m flag: end of text *)

(** The text of each capturing group that took part in the match. *)
Definition captures := list (nat * string).

Fixpoint lookup (n : nat) (c : captures) : option string :=
  match c with
  | [] => None
  | (m, s) :: c' => if Nat.eqb m n then Some s else lookup n c'
  end.

Fixpoint max_group (r : regex) : nat :=
  match r with
  | Cat r1 r2 | Alt r1 r2 => Nat.max (max_group r1) (max_group r2)
  | Opt r | Plus r | NoGroup r => max_group r
  | Group n r => Nat.max n (max_group r)
  | _ => 0%nat
  end.

Section Match.
(** The whole input; a position is a number of bytes from its start. *)
Variable input : string.

Definition cont := nat -> captures -> option captures.

(** [run r pos caps k]: match [r] at [pos], then continue with [k];
    [None] when every way of matching fails. *)
Fixpoint run (r : regex) (pos : nat) (caps : captures) (k : cont)
  {struct r} : option captures :=
  match r with
  | Lit lit =>
      if prefix lit (drop pos input) then k (pos + length lit)%nat caps else None
  | Class p =>
      match drop pos input with
      | String c _ => if p c then k (S pos) caps else None
      | EmptyString => None
      end
  | AnyChar =>
      match drop pos input with
      | String c _ as rest =>
          if Ascii.eqb c "010" then None
          else k (pos + Utf8.rune_len rest)%nat caps
      | EmptyString => None
      end
  | Cat r1 r2 => run r1 pos caps (fun pos' caps' => run r2 pos' caps' k)
  | Alt r1 r2 =>
      match run r1 pos caps k with
      | Some c => Some c
      | None => run r2 pos caps k
      end
  | Opt r1 =>
      match run r1 pos caps k with
      | Some c => Some c
      | None => k pos caps
      end
  | Plus r1 =>
      (fix loop (fuel : nat) (pos : nat) (caps : captures) : option captures :=
         run r1 pos caps (fun pos' caps' =>
           match fuel with
           | S fuel' =>
               if Nat.ltb pos pos' then
                 match loop fuel' pos' caps' with
                 | Some c => Some c
                 | None => k pos' caps'
                 end
               else k pos' caps'
           | O => k pos' caps'
           end))
        (length input) pos caps
  | Group n r1 =>
      run r1 pos caps (fun pos' caps' => k pos' ((n, slice input pos pos') :: caps'))
  | NoGroup r1 => run r1 pos caps k
  | Bol => if Nat.eqb pos 0 then k pos caps else None
  | Eol => if Nat.eqb pos (length input) then k pos caps else None
  end.
End Match.

(** [re.FindStringSubmatch(s)] for a pattern that starts with [^]: a
    match can only begin at the start of the text.  The result holds the
    text of the whole match and of each group, the empty string for a
    group that took no part; [None] is Go's nil. *)
Definition FindStringSubmatch (r : regex) (s : string) : option (list string) :=
  match run s (Group 0 r) 0 [] (fun _ caps => Some caps) with
  | Some caps =>
      Some (map (fun n => match lookup n caps with Some t => t | None => "" end)
                (seq 0 (S (max_group r))))
  | None => None
  end.

End Regexp.

Import Regexp.

(** The pattern of [re], group by group. *)
Definition signed_int : regex := Cat (Opt (Class Bytes.is_sign)) (Plus (Class Bytes.is_digit)).
Definition digits : regex := Plus (Class Bytes.is_digit).

Definition re : regex :=
  Cat Bol
 (Cat (Opt (NoGroup (Cat (Group 1 signed_int) (Lit " year"))))
 (Cat (Opt (Lit " "))
 (Cat (Opt (NoGroup (Cat (Group 2 signed_int) (Lit " mons"))))
 (Cat (Opt (Lit " "))
 (Cat (Opt (NoGroup (Cat (Group 3 signed_int) (Lit " days"))))
 (Cat (Opt (Lit " "))
 (Cat (Opt (NoGroup
        (Cat (Opt (Group 4 (Class Bytes.is_sign)))
        (Cat (Group 5 digits)
        (Cat (Lit ":")
        (Cat (Group 6 digits)
        (Cat (Lit ":")
             (Group 7 (Cat digits
                          (Opt (NoGroup (Alt (Lit ",") (Cat AnyChar digits)))))))))))))
      Eol))))))).

(** ** Errors *)

Inductive num_err := ErrSyntax | ErrRange.

Inductive error :=
| errorString (msg : string)                      (* errors.New(msg) *)
| NumError (Func Num : string) (Err : num_err).    (* *strconv.NumError *)

(** ** strconv and fmt *)

Module Strconv.
Import Bytes.

(** The value of a text of decimal digits; [None] when a byte is not a
    digit. *)
Fixpoint digits_val (acc : Z) (s : string) : option Z :=
  match s with
  | EmptyString => Some acc
  | String c s' =>
      if is_digit c then digits_val (10 * acc + digit_val c) s' else None
  end.

(** [strconv.ParseInt(s, 10, bitSize)]: an optional sign and decimal
    digits.  A value outside the [bitSize]-bit signed range is returned
    clamped, with a range error. *)
Definition ParseInt (s : string) (bitSize : Z) : Z * option error :=
  let syntax := Some (NumError "ParseInt" s ErrSyntax) in
  let range := Some (NumError "ParseInt" s ErrRange) in
  match s with
  | EmptyString => (0, syntax)
  | String c rest =>
      let '(neg, body) :=
        if Ascii.eqb c "+" then (false, rest)
        else if Ascii.eqb c "-" then (true, rest)
        else (false, s) in
      match body with
      | EmptyString => (0, syntax)
      | _ =>
          match digits_val 0 body with
          | None => (0, syntax)
          | Some un =>
              let cutoff := 2 ^ (bitSize - 1) in
              if (negb neg && Z.leb cutoff un)%bool then (cutoff - 1, range)
              else if (neg && Z.ltb cutoff un)%bool then (- cutoff, range)
              else (if neg then - un else un, None)
          end
      end
  end.

(** [strconv.FormatInt(z, 10)] *)
Definition FormatInt (z : Z) : string :=
  DecimalString.NilZero.string_of_int (Z.to_int z).

(** The verb [%02d] of fmt: at least two columns, filled with zeros
    after the sign. *)
Definition fmt_02d (z : Z) : string :=
  if Z.ltb z 0 then FormatInt z
  else if Z.ltb z 10 then "0" ++ FormatInt z
  else FormatInt z.

(** *** Reading a float

    The decimal syntax of [strconv.ParseFloat]: an optional sign, digits
    with an optional point, an optional exponent; an underscore may
    stand between two digits.  Two forms of the syntax are left out and
    end as syntax errors here: the names of the infinities and of NaN,
    which start with a sign or a letter, and hexadecimal mantissas,
    which need the prefix [0x] and an exponent [p].  Neither can reach
    [Parse], whose seconds start with a digit and hold at most one
    character that is not a digit. *)

(** Leading digits of [s]: their value continuing [acc], how many there
    are, and the rest.  As the loop of [readFloat] does, underscores are
    passed over; [underscoreOK] judges them afterwards. *)
Fixpoint read_digits (acc : Z) (n : Z) (s : string) : Z * Z * string :=
  match s with
  | String c s' =>
      if Ascii.eqb c "_" then read_digits acc n s'
      else if is_digit c then read_digits (10 * acc + digit_val c) (n + 1) s'
      else (acc, n, s)
  | EmptyString => (acc, n, s)
  end.

(** The digits of an exponent, underscores passed over; as in
    [readFloat] the value stops growing once it has reached 10000. *)
Fixpoint read_exp (acc : Z) (s : string) : Z * string :=
  match s with
  | String c s' =>
      if Ascii.eqb c "_" then read_exp acc s'
      else if is_digit c
      then read_exp (if Z.ltb acc 10000 then 10 * acc + digit_val c else acc) s'
      else (acc, s)
  | EmptyString => (acc, s)
  end.

Definition read_sign (s : string) : bool * string :=
  match s with
  | String c s' =>
      if Ascii.eqb c "+" then (false, s')
      else if Ascii.eqb c "-" then (true, s')
      else (false, s)
  | EmptyString => (false, s)
  end.

(** What [underscoreOK] saw last: nothing yet, a digit (or the base
    prefix), an underscore, or another byte. *)
Inductive saw := SawStart | SawDigit | SawUnderscore | SawOther.

Fixpoint underscore_loop (hex : bool) (last : saw) (s : string) : bool :=
  match s with
  | EmptyString => match last with SawUnderscore => false | _ => true end
  | String c s' =>
      if (is_digit c || hex && (byte_in 97 102 c || byte_in 65 70 c))%bool
      then underscore_loop hex SawDigit s'
      else if Ascii.eqb c "_" then
        match last with
        | SawDigit => underscore_loop hex SawUnderscore s'
        | _ => false
        end
      else
        match last with
        | SawUnderscore => false
        | _ => underscore_loop hex SawOther s'
        end
  end.

(** [underscoreOK]: every underscore stands between two digits, or
    between a base prefix and a digit. *)
Definition underscoreOK (s : string) : bool :=
  let s := match s with
           | String c s' => if is_sign c then s' else s
           | EmptyString => s
           end in
  match s with
  | String "0" (String c s') =>
      if (Ascii.eqb c "x" || Ascii.eqb c "X")%bool
      then underscore_loop true SawDigit s'
      else if (Ascii.eqb c "b" || Ascii.eqb c "B"
               || Ascii.eqb c "o" || Ascii.eqb c "O")%bool
      then underscore_loop false SawDigit s'
      else underscore_loop false SawStart s
  | _ => underscore_loop false SawStart s
  end.

Fixpoint has_underscore (s : string) : bool :=
  match s with
  | String c s' => (Ascii.eqb c "_" || has_underscore s')%bool
  | EmptyString => false
  end.

(** [readFloat]: sign, decimal mantissa and decimal exponent of the
    whole text, [None] when the text is not well formed.  The mantissa
    is digits and underscores around at most one point, with a digit
    among them; the exponent starts with a digit after its sign.  A text
    that is read to its end has had all its underscores passed over, so
    the check by [underscoreOK] is made on the whole text. *)
Definition readFloat (s : string) : option (bool * Z * Z) :=
  let '(neg, s1) := read_sign s in
  let '(ip, ni, s2) := read_digits 0 0 s1 in
  let '(mant, nf, s3) :=
    match s2 with
    | String "." s2' => read_digits ip 0 s2'
    | _ => (ip, 0, s2)
    end in
  let checked (r : bool * Z * Z) :=
    if (has_underscore s && negb (underscoreOK s))%bool then None else Some r in
  if Z.eqb (ni + nf) 0 then None
  else
    match s3 with
    | EmptyString => checked (neg, mant, - nf)
    | String c s4 =>
        if (Ascii.eqb c "e" || Ascii.eqb c "E")%bool then
          let '(eneg, s5) := read_sign s4 in
          match s5 with
          | String d _ =>
              if is_digit d then
                match read_exp 0 s5 with
                | (e, EmptyString) =>
                    checked (neg, mant, (if eneg then - e else e) - nf)
                | _ => None
                end
              else None
          | EmptyString => None
          end
        else None
    end.

(** The float nearest to [mant * 10 ^ e10], with the sign [neg]. *)
Definition decimal_to_float (neg : bool) (mant : Z) (e10 : Z) : float64 :=
  if Z.eqb mant 0 then S754_zero neg
  else
    let m := if neg then - mant else mant in
    match e10 with
    | Zneg k => of_ratio m (10 ^ k)%positive
    | _ => of_Z (m * 10 ^ e10)
    end.

(** [strconv.ParseFloat(s, 64)]: the nearest float; a value too large
    for a float64 is returned as an infinity, with a range error. *)
Definition ParseFloat (s : string) : float64 * option error :=
  match readFloat s with
  | None => (zero, Some (NumError "ParseFloat" s ErrSyntax))
  | Some (neg, mant, e10) =>
      let f := decimal_to_float neg mant e10 in
      match f with
      | S754_infinity _ => (f, Some (NumError "ParseFloat" s ErrRange))
      | _ => (f, None)
      end
  end.

(** *** Writing a float

    [strconv.FormatFloat(x, 'f', -1, 64)]: the shortest decimal that
    reads back as [x], the nearest to [x] when several of that length
    do, written without an exponent. *)

(** [floor (n / d * 10 ^ j)] for [d > 0]. *)
Definition scaled_floor (n d : Z) (j : Z) : Z :=
  match j with
  | Zneg k => n / (d * 10 ^ Zpos k)
  | _ => (n * 10 ^ j) / d
  end.

(** How [n / d * 10 ^ j] compares with the whole number [c]. *)
Definition scaled_compare (n d : Z) (j : Z) (c : Z) : comparison :=
  match j with
  | Zneg k => Z.compare n (c * (d * 10 ^ Zpos k))
  | _ => Z.compare (n * 10 ^ j) (c * d)
  end.

(** The least [dp] from [dp0] on with [n / d < 10 ^ dp]. *)
Fixpoint decimal_point (fuel : nat) (n d : Z) (dp0 : Z) : Z :=
  match fuel with
  | O => dp0
  | S fuel' =>
      match scaled_compare n d (- dp0) 1 with
      | Lt => dp0
      | _ => decimal_point fuel' n d (dp0 + 1)
      end
  end.

(** The shortest digits, from [nd] digits on: a whole number [c] and an
    exponent [k], for the decimal [c * 10 ^ k]. *)
Fixpoint shortest (fuel : nat) (x : float64) (n d : Z) (dp : Z) (nd : Z) : Z * Z :=
  let k := dp - nd in
  let lo := scaled_floor n d (- k) in
  let ok c := match SFcompare (decimal_to_float false c k) x with
              | Some Eq => true
              | _ => false
              end in
  let up := match scaled_compare (2 * n) d (- k) (2 * lo + 1) with
            | Lt => false
            | Eq => Z.odd lo
            | Gt => true
            end in
  match fuel with
  | O => (if up then lo + 1 else lo, k)
  | S fuel' =>
      if (ok lo && ok (lo + 1))%bool then (if up then lo + 1 else lo, k)
      else if ok lo then (lo, k)
      else if ok (lo + 1) then (lo + 1, k)
      else shortest fuel' x n d dp (nd + 1)
  end.

(** Trailing zeros of [c] moved into the exponent [k], up to [k = 0]. *)
Fixpoint strip_zeros (fuel : nat) (c k : Z) : Z * Z :=
  match fuel with
  | O => (c, k)
  | S fuel' =>
      if (Z.ltb k 0 && Z.eqb (c mod 10) 0)%bool
      then strip_zeros fuel' (c / 10) (k + 1)
      else (c, k)
  end.

Fixpoint zeros (n : nat) : string :=
  match n with
  | O => ""
  | S n' => "0" ++ zeros n'
  end.

(** The decimal [c * 10 ^ k] written out, [c >= 0]. *)
Definition plain_decimal (c k : Z) : string :=
  match k with
  | Zneg p =>
      let unit := 10 ^ Zpos p in
      let frac := FormatInt (c mod unit) in
      FormatInt (c / unit) ++ "." ++
      zeros (Pos.to_nat p - length frac) ++ frac
  | _ => if Z.eqb c 0 then "0" else FormatInt c ++ zeros (Z.to_nat k)
  end.

Definition FormatFloat (x : float64) : string :=
  match x with
  | S754_nan => "NaN"
  | S754_infinity s => if s then "-Inf" else "+Inf"
  | S754_zero s => if s then "-0" else "0"
  | S754_finite s m e =>
      let n := match e with Zneg _ => Zpos m | _ => Zpos m * 2 ^ e end in
      let d := match e with Zneg k => 2 ^ Zpos k | _ => 1 end in
      let dp := decimal_point 700 n d (-324) in
      let '(c, k) := shortest 17 (SFabs x) n d dp 1 in
      let '(c, k) := strip_zeros 400 c k in
      (if s then "-" else "") ++ plain_decimal c k
  end.

End Strconv.

Import Strconv.

(** ** math *)

(** [math.Remainder(x, y)]: the IEEE 754 remainder [x - n * y], [n] the
    whole number nearest to [x / y], the even one at a tie.  The result is
    exact. *)
Definition Remainder (x y : float64) : float64 :=
  match x, y with
  | S754_nan, _ | _, S754_nan => S754_nan
  | S754_infinity _, _ => S754_nan
  | _, S754_zero _ => S754_nan
  | _, S754_infinity _ => x
  | S754_zero _, S754_finite _ _ _ => x
  | S754_finite sx mx ex, S754_finite _ my ey =>
      let e0 := Z.min ex ey in
      let X := cond_Zopp sx (Zpos (fst (shl_align mx ex e0))) in
      let Y := Zpos (fst (shl_align my ey e0)) in
      let q := X / Y in
      let r := X mod Y in
      let r' := match Z.compare (2 * r) Y with
                | Lt => r
                | Gt => r - Y
                | Eq => if Z.even q then r else r - Y
                end in
      binary_normalize prec emax r' e0 sx
  end.

(** Modelled from the spec: [mathhelper.Round], of the package
    github.com/apaxa-io/mathhelper, which is not among the sources.  The
    spec has it round a float to a whole number ("round(fractional part of
    seconds x 1e9)", "nanosecond resolution"): the nearest int64, the one
    away from zero at a tie; [None] where the float has no int64 value. *)
Definition mathhelper_Round (x : float64) : option Z :=
  match x with
  | S754_zero _ => Some 0%Z
  | S754_finite s m e =>
      let a := match e with
               | Zneg k => (2 * Zpos m + 2 ^ Zpos k) / (2 * 2 ^ Zpos k)
               | _ => Zpos m * 2 ^ e
               end%Z in
      let z := if s then (- a)%Z else a in
      if Int.in_rangeb 64 z then Some z else None
  | _ => None
  end.

(** ** Parse *)

(** The state of [Parse] between two statements: the named result [i],
    and the named result [err] once it has been set, which ends the
    function. *)
Definition step := Interval -> Interval * option error.

Definition andThen (f g : step) : step :=
  fun i => match f i with
           | (i', None) => g i'
           | r => r
           end.

Infix ">>" := andThen (at level 61, left associativity).

Definition nonempty (s : string) : bool :=
  match s with
  | EmptyString => false
  | _ => true
  end.

Section Fields.
(** The result of [re.FindStringSubmatch(s)]. *)
Variable parts : list string.

Definition part (n : nat) : string := nth n parts "".

Definition years : step := fun i =>
  if nonempty (part 1) then
    match ParseInt (part 1) 32 with
    | (_, Some err) => (i, Some err)
    | (ti, None) =>
        (mkInterval (Int.wrap32 (Int.wrap32 ti * 12)) (Days i) (Seconds i), None)
    end
  else (i, None).

Definition months : step := fun i =>
  if nonempty (part 2) then
    match ParseInt (part 2) 32 with
    | (_, Some err) => (i, Some err)
    | (ti, None) =>
        (mkInterval (Int.wrap32 (Months i + Int.wrap32 ti)) (Days i) (Seconds i), None)
    end
  else (i, None).

Definition days : step := fun i =>
  if nonempty (part 3) then
    match ParseInt (part 3) 32 with
    | (_, Some err) => (i, Some err)
    | (ti, None) => (mkInterval (Months i) (Int.wrap32 ti) (Seconds i), None)
    end
  else (i, None).

Definition negativeTime : bool := String.eqb (part 4) "-".

Definition hours : step := fun i =>
  if nonempty (part 5) then
    match ParseInt (part 5) 64 with
    | (_, Some err) => (i, Some err)
    | (ti, None) =>
        (mkInterval (Months i) (Days i) (mul (of_Z ti) (of_Z 3600)), None)
    end
  else (i, None).

Definition minutes : step := fun i =>
  if nonempty (part 6) then
    match ParseInt (part 6) 64 with
    | (_, Some err) => (i, Some err)
    | (ti, None) =>
        (mkInterval (Months i) (Days i)
           (add (Seconds i) (mul (of_Z ti) (of_Z 60))), None)
    end
  else (i, None).

Definition seconds : step := fun i =>
  if nonempty (part 7) then
    match ParseFloat (part 7) with
    | (_, Some err) => (i, Some err)
    | (tf, None) => (mkInterval (Months i) (Days i) (add (Seconds i) tf), None)
    end
  else (i, None).

Definition fix_sign : step := fun i =>
  if negativeTime
  then (mkInterval (Months i) (Days i) (mul (Seconds i) (of_Z (-1))), None)
  else (i, None).

Definition fields : step :=
  years >> months >> days >> hours >> minutes >> seconds >> fix_sign.
End Fields.

Definition Parse (s : string) : Interval * option error :=
  let i := zeroInterval in
  match FindStringSubmatch re s with
  | None => (i, Some (errorString ("Unable to parse interval from string " ++ s)))
  | Some parts =>
      if negb (Nat.eqb (List.length parts) 8)
      then (i, Some (errorString ("Unable to parse interval from string " ++ s)))
      else fields parts i
  end.

(** ** Normalized components *)

Definition NormalYears (i : Interval) : Z := Z.quot (Months i) 12.

Definition NormalMonths (i : Interval) : Z := Z.rem (Months i) 12.

Definition NormalDays (i : Interval) : Z := Days i.

(** [int32(i.Seconds / 3600)] *)
Definition NormalHours (i : Interval) : option Z :=
  to_int 32 (div (Seconds i) (of_Z 3600)).

(** [int8((i.Seconds - float64(i.NormalHours())*3600) / 60)] *)
Definition NormalMinutes (i : Interval) : option Z :=
  match NormalHours i with
  | Some h => to_int 8 (div (sub (Seconds i) (mul (of_Z h) (of_Z 3600))) (of_Z 60))
  | None => None
  end.

(** ** Duration

    A [time.Duration] is an int64 count of nanoseconds.  [Round] stands
    for [mathhelper.Round], a function of another package: it gives an
    int64, or [None] where its result is left to the implementation. *)

Section Duration.
Variable Round : float64 -> option Z.

Definition Duration (i : Interval) (daysInMonth secondsInDay : Z) : option Z :=
  match Round (mul (Seconds i) (of_Z 1000000000)) with
  | Some r =>
      Some (Int.wrap64
              (Int.wrap64
                 (Int.wrap64
                    (Int.wrap64 (Int.wrap64 (Months i * daysInMonth) + Days i)
                     * secondsInDay)
                  * 1000000000)
               + r))
  | None => None
  end.
End Duration.

(** ** String

    [None] where the text depends on a float-to-integer conversion that Go
    leaves to the implementation. *)

Definition String (i : Interval) : option string :=
  if ((Months i =? 0)%Z && (Days i =? 0)%Z && F64.eqb (Seconds i) zero)%bool
  then Some "00:00:00"
  else
    let y := NormalYears i in
    let mon := NormalMonths i in
    let negativeTime := F64.ltb (Seconds i) zero in
    let i := if negativeTime
             then mkInterval (Months i) (Days i) (neg (Seconds i))
             else i in
    match NormalHours i, NormalMinutes i with
    | Some h, Some m =>
        let s := Remainder (Seconds i) (of_Z 60) in
        let str := "" in
        let str := if negb (y =? 0)%Z then str ++ FormatInt y ++ " year " else str in
        let str := if negb (mon =? 0)%Z then str ++ FormatInt mon ++ " mons " else str in
        let str := if negb (Days i =? 0)%Z
                   then str ++ FormatInt (Days i) ++ " days " else str in
        if negb (F64.eqb (Seconds i) zero) then
          let str := if negativeTime then str ++ "-" else str in
          let secStr := FormatFloat s in
          let secStr := if F64.ltb s (of_Z 10) then "0" ++ secStr else secStr in
          Some (str ++ (fmt_02d h ++ ":" ++ fmt_02d m) ++ ":" ++ secStr)
        else Some (Bytes.slice str 0 (length str - 1))
    | _, _ => None
    end.

(** ** Notions the statements use *)

(** Some field of [a] is strictly below the same field of [b]. *)
Definition below_somewhere (a b : Interval) : Prop :=
  (Months a < Months b)%Z \/ (Days a < Days b)%Z \/
  F64.ltb (Seconds a) (Seconds b) = true.

(** The Intervals of the spec's example. *)
Definition pull_a : Interval := mkInterval (-2147483648) 2147483647 zero.
Definition pull_b : Interval := mkInterval 2147483647 (-2147483648) zero.

(** The conversions of [Parse], in the order of the source. *)
Definition conversions (parts : list string) : list step :=
  [years parts; months parts; days parts; hours parts; minutes parts; seconds parts].

Fixpoint run_steps (l : list step) : step :=
  match l with
  | [] => fun i => (i, None)
  | f :: l' => f >> run_steps l'
  end.

(** A step that leaves [i] as it was when it sets [err]. *)
Definition keeps_on_error (f : step) : Prop :=
  forall i i' e, f i = (i', Some e) -> i' = i.

Ltac keeps_tac conv :=
  intros i i' e; unfold conv;
  destruct (nonempty _); [ | congruence];
  match goal with
  | |- context [ParseInt ?s ?b] => destruct (ParseInt s b) as [ti [err | ]]
  | |- context [ParseFloat ?s] => destruct (ParseFloat s) as [tf [err | ]]
  end; congruence.

From Stdlib Require Import DecimalPos.

(** ** More of the normalized components *)

(** [int8(int64(i.Seconds) % 60)] *)
Definition NormalSeconds (i : Interval) : option Z :=
  match to_int 64 (Seconds i) with
  | Some t => Some (Int.wrap 8 (Z.rem t 60))
  | None => None
  end.

(** ** Mul *)

(** [Mul]: each part is multiplied by itself; the months and the days go
    through float64 and back to int32, which leaves the result to the
    implementation ([None]) when a product does not fit. *)
Definition Mul (i : Interval) (mul : float64) : option Interval :=
  match to_int 32 (F64.mul (of_Z (Months i)) mul),
        to_int 32 (F64.mul (of_Z (Days i)) mul) with
  | Some m, Some d => Some (mkInterval m d (F64.mul (Seconds i) mul))
  | _, _ => None
  end.

(** ** Durations and times *)

(** [FromDuration(d)], of the int64 count of nanoseconds
    [d.Nanoseconds()]. *)
Definition FromDuration (d : Z) : Interval :=
  mkInterval 0 0 (F64.div (of_Z d) (of_Z 1000000000)).

(** [Diff(from, to)], of what [UnixNano()] gives for the two times. *)
Definition Diff (from to : Z) : Interval :=
  mkInterval 0 0
    (F64.div (F64.sub (of_Z to) (of_Z from)) (of_Z 1000000000)).

(** A time as [DiffExtended] reads it: what [Date()], [Clock()] and
    [Nanosecond()] give, each an [int] (64 bits here). *)
Record Time := mkTime {
  tYear : Z; tMonth : Z; tDay : Z;
  tHour : Z; tMin : Z; tSec : Z;
  tNsec : Z
}.

Definition DiffExtended (from to : Time) : Interval :=
  mkInterval
    (Int.wrap32
       (Int.wrap64 (Int.wrap64 (Int.wrap64 (tYear to - tYear from) * 12)
                    + Int.wrap64 (tMonth to - tMonth from))))
    (Int.wrap32 (Int.wrap64 (tDay to - tDay from)))
    (F64.add
       (of_Z (Int.wrap64
                (Int.wrap64
                   (Int.wrap64 (Int.wrap64 (tHour to - tHour from) * 3600)
                    + Int.wrap64 (Int.wrap64 (tMin to - tMin from) * 60))
                 + Int.wrap64 (tSec to - tSec from))))
       (F64.div (of_Z (Int.wrap64 (tNsec to - tNsec from))) (of_Z 1000000000))).

(** ** Notions the statements on texts use *)

(** The loop of [r+] in [run], by itself. *)
Section Loop.
Variable input : string.
Variable r1 : regex.
Variable k : Regexp.cont.

Fixpoint plus_loop (fuel : nat) (pos : nat) (caps : captures) : option captures :=
  run input r1 pos caps (fun pos' caps' =>
    match fuel with
    | S fuel' =>
        if Nat.ltb pos pos' then
          match plus_loop fuel' pos' caps' with
          | Some c => Some c
          | None => k pos' caps'
          end
        else k pos' caps'
    | O => k pos' caps'
    end).
End Loop.

(** [rest] is what is left of [input] from the position [pos] on. *)
Definition at_pos (input : string) (pos : nat) (rest : string) : Prop :=
  exists pre, input = pre ++ rest /\ length pre = pos.

(** A text of decimal digits. *)
Fixpoint all_digits (s : string) : bool :=
  match s with
  | EmptyString => true
  | String.String c s' => Bytes.is_digit c && all_digits s'
  end.

(** A text that does not start with a digit. *)
Definition no_digit_ahead (rest : string) : Prop :=
  match rest with
  | String.String c _ => Bytes.is_digit c = false
  | EmptyString => True
  end.

(** The pattern of [re] for a number and its unit, for the time of day,
    and from one unit on: [re] is [Cat Bol] of the three units. *)
Definition unit_group (n : nat) (lit : string) : regex :=
  Opt (NoGroup (Cat (Group n signed_int) (Lit lit))).

Definition time_group : regex :=
  NoGroup
    (Cat (Opt (Group 4 (Class Bytes.is_sign)))
    (Cat (Group 5 digits)
    (Cat (Lit ":")
    (Cat (Group 6 digits)
    (Cat (Lit ":")
         (Group 7 (Cat digits
                      (Opt (NoGroup (Alt (Lit ",") (Cat AnyChar digits))))))))))).

(** A unit of the text: the number of its group, the text of the unit,
    and the value. *)
Definition unit : Type := nat * string * Z.

Fixpoint stage (l : list unit) : regex :=
  match l with
  | [] => Cat (Opt time_group) Eol
  | (n, lit, _) :: l' => Cat (unit_group n lit) (Cat (Opt (Lit " ")) (stage l'))
  end.

(** Some unit has a value that is not zero. *)
Definition has_units (l : list unit) : bool :=
  existsb (fun u => negb (snd u =? 0)%Z) l.

(** The units whose value is not zero, each as its number and its text,
    with one space between two of them. *)
Fixpoint units_text (l : list unit) : string :=
  match l with
  | [] => ""
  | (_, lit, z) :: l' =>
      if (z =? 0)%Z then units_text l'
      else FormatInt z ++ lit ++ (if has_units l' then " " ++ units_text l' else "")
  end.

(** The groups these units fill, the last one first. *)
Fixpoint units_caps (l : list unit) (caps : captures) : captures :=
  match l with
  | [] => caps
  | (n, _, z) :: l' =>
      if (z =? 0)%Z then units_caps l' caps
      else units_caps l' ((n, FormatInt z) :: caps)
  end.

(** Every unit text starts with a space, and none starts a later one. *)
Fixpoint well_separated (l : list unit) : Prop :=
  match l with
  | [] => True
  | (_, lit, _) :: l' =>
      (exists lit0, lit = String.String " " lit0) /\
      (forall n' lit' z' S, In (n', lit', z') l' -> prefix lit (lit' ++ S) = false) /\
      well_separated l'
  end.

(** The continuation that ends a match of the whole pattern. *)
Definition whole_match (input : string) : Regexp.cont :=
  fun pos' caps' => Some ((0%nat, Bytes.slice input 0 pos') :: caps').

(** The units of an Interval without seconds. *)
Definition date_units (i : Interval) : list unit :=
  [(1%nat, " year", NormalYears i); (2%nat, " mons", NormalMonths i);
   (3%nat, " days", Days i)].


(** A float that holds a whole number exactly, as [float64(z)] does for a
    [z] of at most 53 bits: the number is [p], negated when [s] is set,
    and the mantissa is [p] shifted to 53 bits. *)
Definition whole (s : bool) (p : positive) (x : float64) : Prop :=
  exists m e,
    x = S754_finite s m e /\
    canonical_mantissa F64.prec F64.emax m e = true /\
    (- 52 <= e <= 0)%Z /\
    (Z.pos m = Z.pos p * 2 ^ (- e))%Z.

(** ** Div *)

(** [Div]: each part is divided by itself, the months and the days
    through float64 and back to int32, as in [Mul]. *)
Definition Div (i : Interval) (div : float64) : option Interval :=
  match to_int 32 (F64.div (of_Z (Months i)) div),
        to_int 32 (F64.div (of_Z (Days i)) div) with
  | Some m, Some d => Some (mkInterval m d (F64.div (Seconds i) div))
  | _, _ => None
  end.

(** ** The unit Intervals *)

(** The literals [1e-9], [1e-6] and [1e-3] are the floats nearest to
    these fractions. *)
Definition Nanosecond : Interval := mkInterval 0 0 (of_ratio 1 1000000000).
Definition Microsecond : Interval := mkInterval 0 0 (of_ratio 1 1000000).
Definition Millisecond : Interval := mkInterval 0 0 (of_ratio 1 1000).
Definition Second : Interval := mkInterval 0 0 (of_Z 1).
Definition Minute : Interval := mkInterval 0 0 (of_Z 60).
Definition Hour : Interval := mkInterval 0 0 (of_Z 3600).
Definition Day : Interval := mkInterval 0 1 F64.zero.
Definition Month : Interval := mkInterval 1 0 F64.zero.
Definition Year : Interval := mkInterval 12 0 F64.zero.
(** ** Exact sums *)

(** The value of a float that is a number, counted in units of
    [2^-1074], the least positive float64: every float64 number is a
    whole multiple of it.  [None] for the infinities and NaN. *)
Definition exact_value (x : float64) : option Z :=
  match x with
  | S754_zero _ => Some 0%Z
  | S754_finite s m e =>
      if (- 1074 <=? e)%Z
      then Some (cond_Zopp s (Z.pos m) * 2 ^ (e + 1074))%Z
      else None
  | _ => None
  end.

(** The float sum [x + y] is exact: it has not been rounded (nor has it
    overflowed), its value is the sum of the values. *)
Definition exact_sum (x y : float64) : Prop :=
  exists vx vy : Z,
    exact_value x = Some vx /\ exact_value y = Some vy /\
    exact_value (F64.add x y) = Some (vx + vy)%Z.

(** * Properties *)

(** ** Comparison of floats *)

Lemma SFcompare_antisym (x y : float64) :
  SFcompare y x = option_map CompOpp (SFcompare x y).
Proof.
  destruct x as [sx | sx | | sx mx ex], y as [sy | sy | | sy my ey];
    try destruct sx; try destruct sy; try reflexivity; simpl;
    rewrite (Z.compare_antisym ex ey);
    destruct (ex ?= ey)%Z; simpl; try reflexivity;
    pose proof (Pos.compare_cont_antisym mx my Eq) as H; simpl in H;
    rewrite <- H; try rewrite CompOpp_involutive; reflexivity.
Qed.

Lemma geb_leb (x y : float64) : F64.geb x y = F64.leb y x.
Proof.
  unfold F64.geb, F64.leb, SFleb. rewrite (SFcompare_antisym x y).
  destruct (SFcompare x y) as [[ | | ] | ]; reflexivity.
Qed.

Lemma ltb_not_geb (x y : float64) : F64.ltb x y = true -> F64.geb x y = false.
Proof.
  unfold F64.ltb, SFltb, F64.geb.
  destruct (SFcompare x y) as [[ | | ] | ]; congruence.
Qed.

Lemma ltb_not_leb (x y : float64) : F64.ltb x y = true -> F64.leb y x = false.
Proof.
  intros H. rewrite <- geb_leb. now apply ltb_not_geb.
Qed.

(** ** Ordering of Intervals *)

Lemma GreaterOrEqual_LessOrEqual (a b : Interval) :
  GreaterOrEqual a b = LessOrEqual b a.
Proof.
  unfold GreaterOrEqual, LessOrEqual.
  rewrite geb_leb, !Z.geb_leb. reflexivity.
Qed.

Lemma below_somewhere_not_ge (a b : Interval) :
  below_somewhere a b -> GreaterOrEqual a b = false.
Proof.
  unfold below_somewhere, GreaterOrEqual. intros [H | [H | H]].
  - rewrite Z.geb_leb. apply Z.leb_gt in H. rewrite H. reflexivity.
  - rewrite (Z.geb_leb (Days a)). apply Z.leb_gt in H. rewrite H.
    apply andb_false_intro1, andb_false_r.
  - rewrite (ltb_not_geb _ _ H). apply andb_false_r.
Qed.

(** C4: [Comparable a b] is [LessOrEqual a b || GreaterOrEqual a b]; it is
    false when the fields pull in opposite directions, that is when some
    field of [a] is below that of [b] and some other is above; the
    Intervals of the example are not comparable.  [Comparable] is a total
    function: there is nothing that can fail. *)
Theorem Comparable_partial_order (a b : Interval) :
  Comparable a b = (LessOrEqual a b || GreaterOrEqual a b)%bool /\
  (below_somewhere a b -> below_somewhere b a -> Comparable a b = false) /\
  Comparable pull_a pull_b = false.
Proof.
  split; [reflexivity | split; [ | reflexivity]].
  intros Hab Hba. unfold Comparable.
  rewrite (below_somewhere_not_ge a b Hab).
  rewrite <- GreaterOrEqual_LessOrEqual, (below_somewhere_not_ge b a Hba).
  reflexivity.
Qed.

Lemma Comparable_partial_order_witness :
  Comparable (mkInterval 1 0 (of_Z 86400)) (mkInterval 1 1 zero) = false.
Proof.
  apply (proj1 (proj2 (Comparable_partial_order
                        (mkInterval 1 0 (of_Z 86400)) (mkInterval 1 1 zero)))).
  - right; left; simpl; lia.
  - right; right; vm_compute; reflexivity.
Defined.

(** C10: comparability is symmetric. *)
Theorem Comparable_sym (a b : Interval) : Comparable a b = Comparable b a.
Proof.
  unfold Comparable.
  rewrite (GreaterOrEqual_LessOrEqual a b), (GreaterOrEqual_LessOrEqual b a).
  apply orb_comm.
Qed.

(** ** Parse on concrete texts *)

(** C1: the worked examples of [Parse]. *)
Theorem Parse_examples :
  Parse "-1 year -2 mons +3 days -04:05:06"
    = (mkInterval (-14) 3 (of_Z (-14706)), None) /\
  Parse "" = (mkInterval 0 0 zero, None) /\
  Parse "2 year -34:56:78" = (mkInterval 24 0 (of_Z (-125838)), None).
Proof. repeat split; vm_compute; reflexivity. Qed.

(** C3: a year count that fits int32 is multiplied by 12 in int32, and
    the months are added in int32: the product and the sum wrap around and
    [Parse] reports no error. *)
Theorem Parse_year_overflow_wraps :
  Parse "178956971 year" = (mkInterval (-2147483644) 0 zero, None) /\
  Parse "2147483647 year" = (mkInterval (-12) 0 zero, None) /\
  Parse "178956970 year 8 mons" = (mkInterval (-2147483648) 0 zero, None).
Proof. repeat split; vm_compute; reflexivity. Qed.

(** C8: texts of one to three spaces are read as the zero Interval, two
    fields may be two spaces apart when the field between them is absent,
    and two fields may follow each other without a space. *)
Theorem Parse_accepts_loose_spaces :
  Parse " " = (zeroInterval, None) /\
  Parse "  " = (zeroInterval, None) /\
  Parse "   " = (zeroInterval, None) /\
  Parse "1 year  3 days" = (mkInterval 12 3 zero, None) /\
  Parse "1 year2 mons" = (mkInterval 14 0 zero, None) /\
  (exists e, Parse "    " = (zeroInterval, Some e)).
Proof.
  repeat split; try (vm_compute; reflexivity).
  eexists. vm_compute. reflexivity.
Qed.

(** C2: 45 seconds are written with the IEEE remainder -15 of 45 by 60,
    and the text does not read back. *)
Theorem String_Parse_45_seconds :
  String (mkInterval 1 1 (of_Z 45)) = Some "1 mons 1 days 00:00:0-15" /\
  Parse "1 mons 1 days 00:00:0-15"
    = (mkInterval 1 1 zero, Some (NumError "ParseFloat" "0-15" ErrSyntax)) /\
  String (mkInterval 1 1 (of_Z 15)) = Some "1 mons 1 days 00:00:15" /\
  Parse "1 mons 1 days 00:00:15" = (mkInterval 1 1 (of_Z 15), None).
Proof. repeat split; vm_compute; reflexivity. Qed.

(** The seconds of a text go to [strconv.ParseFloat], which lets an
    underscore stand between two digits, and the unescaped dot of [re]
    lets one through. *)
Lemma Parse_reads_underscore :
  Parse "00:00:1_5" = (mkInterval 0 0 (of_Z 15), None) /\
  snd (Strconv.ParseFloat "1_5.2_5") = None /\
  snd (Strconv.ParseFloat "15_") <> None /\
  snd (Strconv.ParseFloat "1_.5") <> None.
Proof. repeat split; vm_compute; congruence. Qed.

(** ** Parse on failure *)

Lemma years_keeps parts : keeps_on_error (years parts).
Proof. keeps_tac years. Qed.

Lemma months_keeps parts : keeps_on_error (months parts).
Proof. keeps_tac months. Qed.

Lemma days_keeps parts : keeps_on_error (days parts).
Proof. keeps_tac days. Qed.

Lemma hours_keeps parts : keeps_on_error (hours parts).
Proof. keeps_tac hours. Qed.

Lemma minutes_keeps parts : keeps_on_error (minutes parts).
Proof. keeps_tac minutes. Qed.

Lemma seconds_keeps parts : keeps_on_error (seconds parts).
Proof. keeps_tac seconds. Qed.

Lemma conversions_keep parts : Forall keeps_on_error (conversions parts).
Proof.
  unfold conversions.
  repeat constructor;
    auto using years_keeps, months_keeps, days_keeps, hours_keeps,
               minutes_keeps, seconds_keeps.
Qed.

Lemma fix_sign_no_error parts i : snd (fix_sign parts i) = None.
Proof. unfold fix_sign. destruct (negativeTime parts); reflexivity. Qed.

(** A failing run stops at its first failing step, with the state the
    steps before it have built. *)
Lemma run_steps_error (l : list step) :
  Forall keeps_on_error l ->
  forall i0 i e, run_steps l i0 = (i, Some e) ->
  exists n f, nth_error l n = Some f /\
              run_steps (firstn n l) i0 = (i, None) /\
              f i = (i, Some e).
Proof.
  induction 1 as [ | f l Hf Hl IH]; intros i0 i e Hrun; simpl in Hrun.
  - discriminate.
  - unfold andThen in Hrun.
    destruct (f i0) as [i1 [e1 | ]] eqn:Ef.
    + inversion Hrun; subst. pose proof (Hf _ _ _ Ef) as ->.
      exists 0%nat, f. simpl. auto.
    + destruct (IH _ _ _ Hrun) as (n & g & Hn & Hpre & Hg).
      exists (S n), g. simpl. unfold andThen. rewrite Ef. auto.
Qed.

Lemma fields_run_steps parts i :
  fields parts i = (run_steps (conversions parts) >> fix_sign parts) i.
Proof.
  unfold fields, conversions, run_steps, andThen.
  destruct (years parts i) as [i1 [e1 | ]]; [reflexivity | ].
  destruct (months parts i1) as [i2 [e2 | ]]; [reflexivity | ].
  destruct (days parts i2) as [i3 [e3 | ]]; [reflexivity | ].
  destruct (hours parts i3) as [i4 [e4 | ]]; [reflexivity | ].
  destruct (minutes parts i4) as [i5 [e5 | ]]; [reflexivity | ].
  destruct (seconds parts i5) as [i6 [e6 | ]]; reflexivity.
Qed.

Lemma FindStringSubmatch_length (s : string) (parts : list string) :
  FindStringSubmatch re s = Some parts -> List.length parts = 8%nat.
Proof.
  unfold FindStringSubmatch.
  destruct (Regexp.run _ _ _ _ _); [ | discriminate].
  intros H. injection H as <-. reflexivity.
Qed.

(** C7, as the code has it: when the text does not match the pattern the
    Interval returned with the error is the zero value; when a conversion
    fails, it is the Interval built by the conversions before the failing
    one, which left it as it was. *)
Theorem Parse_error_keeps_converted (s : string) (i : Interval) (e : error) :
  Parse s = (i, Some e) ->
  match FindStringSubmatch re s with
  | None => i = zeroInterval
  | Some parts =>
      exists n f, nth_error (conversions parts) n = Some f /\
                  run_steps (firstn n (conversions parts)) zeroInterval = (i, None) /\
                  f i = (i, Some e)
  end.
Proof.
  unfold Parse.
  destruct (FindStringSubmatch re s) as [parts | ] eqn:Hfind.
  - rewrite (FindStringSubmatch_length _ _ Hfind). simpl.
    rewrite fields_run_steps. unfold andThen at 1.
    destruct (run_steps (conversions parts) zeroInterval) as [j [e' | ]] eqn:Hrun.
    + intros H. inversion H; subst.
      exact (run_steps_error _ (conversions_keep parts) _ _ _ Hrun).
    + intros H. pose proof (fix_sign_no_error parts j) as Hs.
      rewrite H in Hs. discriminate.
  - intros H. inversion H. reflexivity.
Qed.

Lemma Parse_error_keeps_converted_witness :
  exists n f,
    nth_error (conversions ["1 year 99999999999 mons"; "1"; "99999999999"; ""; ""; ""; ""; ""]) n
      = Some f /\
    run_steps (firstn n (conversions ["1 year 99999999999 mons"; "1"; "99999999999"; ""; ""; ""; ""; ""]))
      zeroInterval = (mkInterval 12 0 zero, None) /\
    f (mkInterval 12 0 zero)
      = (mkInterval 12 0 zero, Some (NumError "ParseInt" "99999999999" ErrRange)).
Proof.
  apply (Parse_error_keeps_converted "1 year 99999999999 mons" (mkInterval 12 0 zero)
           (NumError "ParseInt" "99999999999" ErrRange)).
  vm_compute. reflexivity.
Defined.

(** C7, as stated, fails: the year has been stored when the months do
    not fit. *)
Lemma Parse_error_not_zero :
  Parse "1 year 99999999999 mons"
    = (mkInterval 12 0 zero, Some (NumError "ParseInt" "99999999999" ErrRange)) /\
  mkInterval 12 0 zero <> zeroInterval.
Proof. split; [vm_compute; reflexivity | discriminate]. Qed.

(** ** Wrap-around arithmetic *)

Section Wrap.
Variable bits : Z.
Hypothesis bits_pos : (0 < bits)%Z.

Local Open Scope Z_scope.

Lemma pow2_half : 2 ^ bits = 2 * 2 ^ (bits - 1).
Proof.
  replace bits with (Z.succ (bits - 1)) at 1 by lia.
  apply Z.pow_succ_r. lia.
Qed.

Lemma pow2_pos : 0 < 2 ^ (bits - 1).
Proof. apply Z.pow_pos_nonneg; lia. Qed.

(** A wrapped value differs from the exact one by a multiple of
    [2 ^ bits]. *)
Lemma wrap_spec (z : Z) : exists k, Int.wrap bits z = z + k * 2 ^ bits.
Proof.
  exists (- ((z + 2 ^ (bits - 1)) / 2 ^ bits)). unfold Int.wrap.
  rewrite Z.mod_eq by (pose proof pow2_pos; rewrite pow2_half; lia).
  ring.
Qed.

Lemma wrap_shift (z k : Z) : Int.wrap bits (z + k * 2 ^ bits) = Int.wrap bits z.
Proof.
  unfold Int.wrap.
  replace (z + k * 2 ^ bits + 2 ^ (bits - 1))
    with (z + 2 ^ (bits - 1) + k * 2 ^ bits) by ring.
  rewrite Z_mod_plus_full. reflexivity.
Qed.

Lemma wrap_id (z : Z) : Int.in_range bits z -> Int.wrap bits z = z.
Proof.
  unfold Int.in_range, Int.wrap. intros H. pose proof pow2_pos.
  rewrite Z.mod_small by (rewrite pow2_half; lia). ring.
Qed.

Lemma wrap_in_range (z : Z) : Int.in_range bits (Int.wrap bits z).
Proof.
  unfold Int.in_range, Int.wrap. pose proof pow2_pos.
  assert (0 <= (z + 2 ^ (bits - 1)) mod 2 ^ bits < 2 ^ bits)
    by (apply Z.mod_pos_bound; rewrite pow2_half; lia).
  rewrite pow2_half in *. lia.
Qed.

(** Adding and then subtracting with wrap-around gives the first
    operand back. *)
Lemma wrap_add_sub (a b : Z) :
  Int.in_range bits a -> Int.wrap bits (Int.wrap bits (a + b) - b) = a.
Proof.
  intros Ha. destruct (wrap_spec (a + b)) as [k ->].
  replace (a + b + k * 2 ^ bits - b) with (a + k * 2 ^ bits) by ring.
  rewrite wrap_shift. now apply wrap_id.
Qed.
End Wrap.

(** ** Add and Sub *)

Lemma SFcompare_refl_finite s m e :
  SFcompare (S754_finite s m e) (S754_finite s m e) = Some Eq.
Proof.
  simpl. rewrite Z.compare_refl, Pos.compare_cont_refl. destruct s; reflexivity.
Qed.

(** Adding a zero and taking it away changes no number. *)
Lemma add_sub_zero (x : float64) (sz : bool) :
  x <> S754_nan ->
  F64.eqb (F64.sub (F64.add x (S754_zero sz)) (S754_zero sz)) x = true.
Proof.
  intros Hx. destruct x as [s | s | | s m e]; try congruence.
  - destruct s, sz; reflexivity.
  - destruct s; reflexivity.
  - change (F64.eqb (S754_finite s m e) (S754_finite s m e) = true).
    unfold F64.eqb, SFeqb. rewrite SFcompare_refl_finite. reflexivity.
Qed.

(** ** NormalHours and NormalMinutes *)

(** The integer part of a float is its floor, but for a negative float
    with a fraction, where it is one above the floor. *)
Lemma trunc_floor (x : float64) (t : Z) :
  F64.trunc x = Some t ->
  F64.floor x = Some (if F64.negative_fraction x then t - 1 else t)%Z.
Proof.
  destruct x as [s | s | | [ | ] m [ | p | k]];
    unfold F64.trunc, F64.floor, F64.negative_fraction;
    try discriminate; intros H;
    apply (f_equal (fun o => match o with Some z => z | None => 0%Z end)) in H;
    cbv beta iota zeta in H; subst t; f_equal; try reflexivity.
  - rewrite <- Pos2Z.opp_pos. apply Z.mul_opp_l.
  - assert (Hd : (2 ^ Z.pos k <> 0)%Z) by (apply Z.pow_nonzero; lia).
    rewrite <- Pos2Z.opp_pos.
    destruct (Z.pos m mod 2 ^ Z.pos k =? 0)%Z eqn:E; cbv [negb].
    + apply Z.eqb_eq in E. now apply Z.div_opp_l_z.
    + apply Z.eqb_neq in E. now apply Z.div_opp_l_nz.
Qed.

Lemma to_int_trunc (bits : Z) (x : float64) (t : Z) :
  F64.trunc x = Some t -> Int.in_range bits t -> F64.to_int bits x = Some t.
Proof.
  unfold F64.to_int, Int.in_range, Int.in_rangeb. intros -> [Hlo Hhi].
  apply Z.leb_le in Hlo. apply Z.ltb_lt in Hhi. rewrite Hlo, Hhi. reflexivity.
Qed.

(** Rounding keeps the sign: what is rounded with a positive sign is no
    negative fraction. *)
Lemma binary_round_aux_no_fraction (mx ex : Z) (lx : location) :
  F64.negative_fraction (binary_round_aux F64.prec F64.emax false mx ex lx) = false.
Proof.
  unfold binary_round_aux.
  destruct (shr_fexp _ _ mx ex lx) as [mrs' e'].
  destruct (shr_fexp _ _ _ e' loc_Exact) as [mrs'' e''].
  destruct (shr_m mrs''); try reflexivity.
  destruct (e'' <=? F64.emax - F64.prec)%Z; reflexivity.
Qed.

(** The quotient of a float that is not below zero by a positive float
    is no negative fraction. *)
Lemma div_nonneg_no_fraction (x : float64) (md : positive) (ed : Z) :
  F64.leb F64.zero x = true ->
  F64.negative_fraction (F64.div x (S754_finite false md ed)) = false.
Proof.
  destruct x as [s | s | | s mx ex]; try reflexivity.
  destruct s; [discriminate | ]. intros _.
  unfold F64.div, SFdiv.
  destruct (SFdiv_core_binary _ _ (Z.pos mx) ex (Z.pos md) ed) as [[mz ez] lz].
  apply binary_round_aux_no_fraction.
Qed.

(** C6, as the code has it: [NormalHours] is the float64 quotient
    [Seconds / 3600] with its fraction discarded, and [NormalMinutes] the
    quotient [(Seconds - NormalHours * 3600) / 60] with its fraction
    discarded, when these fit int32 and int8.  Each is the floor of its
    quotient when the quotient is not negative or is whole, as it is when
    the dividend is not below zero, and one above the floor when the
    quotient is negative with a fraction. *)
Theorem Normal_hours_minutes_truncate (i : Interval) (h m : Z) :
  let rest := F64.sub (Seconds i) (F64.mul (of_Z h) (of_Z 3600)) in
  let qh := F64.div (Seconds i) (of_Z 3600) in
  let qm := F64.div rest (of_Z 60) in
  F64.trunc qh = Some h -> Int.in_range 32 h ->
  F64.trunc qm = Some m -> Int.in_range 8 m ->
  NormalHours i = Some h /\
  NormalMinutes i = Some m /\
  F64.floor qh = Some (if F64.negative_fraction qh then h - 1 else h)%Z /\
  F64.floor qm = Some (if F64.negative_fraction qm then m - 1 else m)%Z /\
  (F64.leb F64.zero (Seconds i) = true -> F64.floor qh = Some h) /\
  (F64.leb F64.zero rest = true -> F64.floor qm = Some m).
Proof.
  intros rest qh qm Hh Rh Hm Rm.
  assert (Eh : NormalHours i = Some h) by (now apply to_int_trunc).
  assert (Fh := trunc_floor qh h Hh).
  assert (Fm := trunc_floor qm m Hm).
  repeat split; try assumption.
  - unfold NormalMinutes. rewrite Eh. now apply to_int_trunc.
  - intros Hpos. rewrite Fh. unfold qh.
    change (of_Z 3600) with (S754_finite false 7916483719987200 (-41)).
    now rewrite div_nonneg_no_fraction.
  - intros Hpos. rewrite Fm. unfold qm.
    change (of_Z 60) with (S754_finite false 8444249301319680 (-47)).
    now rewrite div_nonneg_no_fraction.
Qed.

Lemma Normal_hours_minutes_truncate_witness :
  NormalHours (mkInterval 0 0 (of_Z (-4000))) = Some (-1)%Z /\
  NormalMinutes (mkInterval 0 0 (of_Z (-4000))) = Some (-6)%Z /\
  F64.floor (F64.div (of_Z (-4000)) (of_Z 3600)) = Some (-2)%Z /\
  F64.floor (F64.div (F64.sub (of_Z (-4000)) (F64.mul (of_Z (-1)) (of_Z 3600))) (of_Z 60))
    = Some (-7)%Z.
Proof.
  pose proof (Normal_hours_minutes_truncate (mkInterval 0 0 (of_Z (-4000))) (-1) (-6))
    as H.
  cbv zeta in H.
  assert (H1 : F64.trunc (F64.div (of_Z (-4000)) (of_Z 3600)) = Some (-1)%Z)
    by (vm_compute; reflexivity).
  assert (H2 : Int.in_range 32 (-1)) by (unfold Int.in_range; simpl; lia).
  assert (H3 : F64.trunc (F64.div (F64.sub (of_Z (-4000)) (F64.mul (of_Z (-1)) (of_Z 3600)))
                            (of_Z 60)) = Some (-6)%Z)
    by (vm_compute; reflexivity).
  assert (H4 : Int.in_range 8 (-6)) by (unfold Int.in_range; simpl; lia).
  destruct (H H1 H2 H3 H4) as (A & B & C & D & _).
  repeat split; assumption.
Defined.

(** C6, as stated, fails for negative seconds: -1 second has 0 hours and
    0 minutes, and the floors are -1. *)
Lemma NormalHours_not_floor :
  NormalHours (mkInterval 0 0 (of_Z (-1))) = Some 0%Z /\
  F64.floor (F64.div (of_Z (-1)) (of_Z 3600)) = Some (-1)%Z /\
  NormalMinutes (mkInterval 0 0 (of_Z (-1))) = Some 0%Z /\
  F64.floor (F64.div (F64.sub (of_Z (-1)) (F64.mul (of_Z 0) (of_Z 3600))) (of_Z 60))
    = Some (-1)%Z.
Proof. repeat split; vm_compute; reflexivity. Qed.

(** ** Duration *)

(** C9, as the code has it: whatever [Round] gives for the seconds times
    1e9, say [r] nanoseconds, [Duration] is
    [(Months * daysInMonth + Days) * secondsInDay] seconds plus [r]
    nanoseconds, wrapped to int64; it is that sum itself when the sum fits
    int64.  With a [Round] that rounds to the nearest whole number the
    Interval of the example lasts 864001 seconds. *)
Theorem Duration_wraps (Round : float64 -> option Z)
  (i : Interval) (daysInMonth secondsInDay r : Z) :
  Round (F64.mul (Seconds i) (of_Z 1000000000)) = Some r ->
  let exact :=
    ((Months i * daysInMonth + Days i) * secondsInDay * 1000000000 + r)%Z in
  Duration Round i daysInMonth secondsInDay = Some (Int.wrap64 exact) /\
  (Int.in_range 64 exact -> Duration Round i daysInMonth secondsInDay = Some exact) /\
  Duration mathhelper_Round (mkInterval 0 10 (of_Z 1)) 30 86400
    = Some (864001 * 1000000000)%Z.
Proof.
  intros Hr exact.
  assert (E : Duration Round i daysInMonth secondsInDay = Some (Int.wrap64 exact)).
  { unfold Duration, Int.wrap64. rewrite Hr. f_equal.
    assert (H64 : (0 < 64)%Z) by lia.
    destruct (wrap_spec 64 H64 (Months i * daysInMonth)) as [k1 ->].
    destruct (wrap_spec 64 H64 (Months i * daysInMonth + k1 * 2 ^ 64 + Days i))
      as [k2 ->].
    destruct (wrap_spec 64 H64
                ((Months i * daysInMonth + k1 * 2 ^ 64 + Days i + k2 * 2 ^ 64)
                 * secondsInDay)) as [k3 ->].
    destruct (wrap_spec 64 H64
                (((Months i * daysInMonth + k1 * 2 ^ 64 + Days i + k2 * 2 ^ 64)
                  * secondsInDay + k3 * 2 ^ 64) * 1000000000)) as [k4 ->].
    unfold exact.
    replace (((Months i * daysInMonth + k1 * 2 ^ 64 + Days i + k2 * 2 ^ 64)
              * secondsInDay + k3 * 2 ^ 64) * 1000000000 + k4 * 2 ^ 64 + r)%Z
      with ((Months i * daysInMonth + Days i) * secondsInDay * 1000000000 + r
            + (((k1 + k2) * secondsInDay + k3) * 1000000000 + k4) * 2 ^ 64)%Z
      by ring.
    apply wrap_shift. }
  split; [exact E | split; [ | vm_compute; reflexivity]].
  intros Hfit. rewrite E. f_equal. apply wrap_id; [lia | exact Hfit].
Qed.

Lemma Duration_wraps_witness :
  Duration mathhelper_Round (mkInterval (-10) (-5) (of_Z (-1))) 30 84000
    = Some (-25620001 * 1000000000)%Z.
Proof.
  refine (proj1 (proj2 (Duration_wraps mathhelper_Round
                          (mkInterval (-10) (-5) (of_Z (-1))) 30 84000
                          (-1000000000) _)) _).
  - vm_compute. reflexivity.
  - unfold Int.in_range. simpl. lia.
Defined.

(** C9, as stated, fails when the sum does not fit int64: 4000 months of
    30 days are 10368000000 seconds, and [Duration] is negative. *)
Lemma Duration_overflows :
  Duration mathhelper_Round (mkInterval 4000 0 zero) 30 86400
    = Some (-8078744073709551616)%Z /\
  ((4000 * 30 + 0) * 86400 * 1000000000 + 0 = 10368000000000000000)%Z.
Proof. split; vm_compute; reflexivity. Qed.

(** * More properties of the ordering *)

Lemma SFcompare_refl (x : float64) :
  x <> S754_nan -> SFcompare x x = Some Eq.
Proof.
  destruct x as [s | s | | s m e]; try congruence; intros _.
  - reflexivity.
  - destruct s; reflexivity.
  - apply SFcompare_refl_finite.
Qed.

Lemma eqb_sym (x y : float64) : F64.eqb x y = F64.eqb y x.
Proof.
  unfold F64.eqb, SFeqb. rewrite (SFcompare_antisym x y).
  destruct (SFcompare x y) as [[ | | ] | ]; reflexivity.
Qed.

Lemma leb_antisym (x y : float64) :
  (F64.leb x y && F64.leb y x)%bool = F64.eqb x y.
Proof.
  unfold F64.leb, SFleb, F64.eqb, SFeqb. rewrite (SFcompare_antisym x y).
  destruct (SFcompare x y) as [[ | | ] | ]; reflexivity.
Qed.

(** The comparison of two floats that are no NaN, as an order on a key:
    the sign first, then the exponent and the mantissa. *)
Ltac compare_cases :=
  repeat match goal with
  | |- context [(?a ?= ?b)%Z] =>
      destruct (Z.compare_spec a b); subst
  | |- context [Pos.compare_cont Eq ?a ?b] =>
      change (Pos.compare_cont Eq a b) with (Pos.compare a b);
      destruct (Pos.compare_spec a b); subst
  end.

Lemma leb_trans (x y z : float64) :
  F64.leb x y = true -> F64.leb y z = true -> F64.leb x z = true.
Proof.
  unfold F64.leb, SFleb.
  destruct x as [sx | sx | | sx mx ex], y as [sy | sy | | sy my ey],
           z as [sz | sz | | sz mz ez];
    try destruct sx; try destruct sy; try destruct sz;
    simpl; try congruence;
    compare_cases; simpl; try congruence; try lia.
Qed.

Lemma Equal_sym (a b : Interval) : Equal a b = Equal b a.
Proof.
  unfold Equal. now rewrite eqb_sym, (Z.eqb_sym (Months a)), (Z.eqb_sym (Days a)).
Qed.

(** X1: an Interval is less than another exactly when the other is
    greater than it, and equality does not depend on the order of its
    operands. *)
Theorem Less_Greater_dual (a b : Interval) :
  Less a b = Greater b a /\ Equal a b = Equal b a.
Proof.
  split; [ | apply Equal_sym].
  unfold Less, Greater.
  now rewrite GreaterOrEqual_LessOrEqual, Equal_sym.
Qed.

(** X2: two Intervals are equal exactly when each is less than or equal
    to the other: the order is antisymmetric, NaN seconds included. *)
Theorem LessOrEqual_antisym (a b : Interval) :
  (LessOrEqual a b && LessOrEqual b a)%bool = Equal a b.
Proof.
  unfold LessOrEqual, Equal.
  rewrite <- leb_antisym.
  destruct (Z.leb_spec (Months a) (Months b)), (Z.leb_spec (Months b) (Months a)),
           (Z.leb_spec (Days a) (Days b)), (Z.leb_spec (Days b) (Days a));
    destruct (Z.eqb_spec (Months a) (Months b)), (Z.eqb_spec (Days a) (Days b));
    try lia; simpl; try reflexivity;
    destruct (F64.leb (Seconds a) (Seconds b)); reflexivity.
Qed.

(** X3: the order is transitive. *)
Theorem LessOrEqual_trans (a b c : Interval) :
  LessOrEqual a b = true -> LessOrEqual b c = true -> LessOrEqual a c = true.
Proof.
  unfold LessOrEqual. intros Hab Hbc.
  apply andb_prop in Hab as [Hab Hs1]. apply andb_prop in Hab as [Hm1 Hd1].
  apply andb_prop in Hbc as [Hbc Hs2]. apply andb_prop in Hbc as [Hm2 Hd2].
  apply Z.leb_le in Hm1, Hd1, Hm2, Hd2.
  rewrite (leb_trans _ _ _ Hs1 Hs2).
  rewrite !andb_true_r. apply andb_true_intro. split; apply Z.leb_le; lia.
Qed.

Lemma LessOrEqual_trans_witness :
  LessOrEqual (mkInterval 1 2 (of_Z 3)) (mkInterval 5 6 (of_Z 7)) = true.
Proof.
  apply (LessOrEqual_trans (mkInterval 1 2 (of_Z 3)) (mkInterval 1 4 (of_Z 5))
           (mkInterval 5 6 (of_Z 7))); vm_compute; reflexivity.
Defined.

(** X4: an Interval is comparable with itself, equal to itself and less
    than or equal to itself exactly when its seconds are not NaN. *)
Theorem Comparable_refl_iff (a : Interval) :
  (Comparable a a = true <-> Seconds a <> S754_nan) /\
  Equal a a = Comparable a a /\
  LessOrEqual a a = Comparable a a /\
  Less a a = false.
Proof.
  assert (E : Equal a a = F64.eqb (Seconds a) (Seconds a))
    by (unfold Equal; now rewrite !Z.eqb_refl).
  assert (L : LessOrEqual a a = F64.eqb (Seconds a) (Seconds a)).
  { rewrite <- E, <- LessOrEqual_antisym. now destruct (LessOrEqual a a). }
  assert (C : Comparable a a = F64.eqb (Seconds a) (Seconds a)).
  { unfold Comparable. rewrite GreaterOrEqual_LessOrEqual, L.
    now destruct (F64.eqb _ _). }
  repeat split.
  - rewrite C. intros H Hn. rewrite Hn in H. discriminate.
  - rewrite C. intros H. unfold F64.eqb, SFeqb. now rewrite SFcompare_refl.
  - now rewrite E, C.
  - now rewrite L, C.
  - unfold Less. rewrite E, L. now destruct (F64.eqb _ _).
Qed.

(** X5: of two comparable Intervals exactly one of less, equal and
    greater holds, and of two that are not comparable none holds. *)
Theorem Comparable_trichotomy (a b : Interval) :
  Comparable a b = (Less a b || Equal a b || Greater a b)%bool /\
  (Less a b && Equal a b = false)%bool /\
  (Greater a b && Equal a b = false)%bool /\
  (Less a b && Greater a b = false)%bool.
Proof.
  unfold Comparable, Less, Greater.
  rewrite GreaterOrEqual_LessOrEqual, <- LessOrEqual_antisym.
  destruct (LessOrEqual a b), (LessOrEqual b a); repeat split; reflexivity.
Qed.

(** * More properties of the arithmetic *)

Lemma add_comm (x y : float64) : F64.add x y = F64.add y x.
Proof.
  destruct x as [sx | sx | | sx mx ex], y as [sy | sy | | sy my ey];
    try destruct sx; try destruct sy; try reflexivity;
    unfold F64.add, SFadd; rewrite (Z.min_comm ex ey), Z.add_comm; reflexivity.
Qed.

(** X6: [Add] is commutative, in every field and also when a sum
    overflows or is rounded. *)
Theorem Add_comm (a b : Interval) : Add a b = Add b a.
Proof.
  unfold Add. simpl.
  now rewrite add_comm, (Z.add_comm (Months a)), (Z.add_comm (Days a)).
Qed.

Lemma wrap32_in_range (z : Z) : Int.in_range 32 (Int.wrap32 z).
Proof. apply wrap_in_range. lia. Qed.

Lemma wrap32_add_assoc (x y z : Z) :
  Int.wrap32 (Int.wrap32 (x + y) + z) = Int.wrap32 (x + Int.wrap32 (y + z)).
Proof.
  unfold Int.wrap32. assert (H32 : (0 < 32)%Z) by lia.
  destruct (wrap_spec 32 H32 (x + y)) as [k1 ->].
  destruct (wrap_spec 32 H32 (y + z)) as [k2 ->].
  replace (x + y + k1 * 2 ^ 32 + z)%Z with (x + y + z + k1 * 2 ^ 32)%Z by ring.
  replace (x + (y + z + k2 * 2 ^ 32))%Z with (x + y + z + k2 * 2 ^ 32)%Z by ring.
  now rewrite !wrap_shift.
Qed.

(** X7: [Add] and [Sub] give months and days within int32 whatever their
    operands, and on the months and days [Add] is associative, also when
    sums overflow. *)
Theorem Add_Sub_closed_assoc (a b c : Interval) :
  wf (Add a b) /\ wf (Sub a b) /\
  Months (Add (Add a b) c) = Months (Add a (Add b c)) /\
  Days (Add (Add a b) c) = Days (Add a (Add b c)).
Proof.
  unfold wf, Add, Sub. simpl.
  repeat split; try apply wrap32_in_range; apply wrap32_add_assoc.
Qed.

Lemma sub_diag (x : float64) :
  F64.sub x x = match x with
                | S754_zero _ | S754_finite _ _ _ => F64.zero
                | _ => S754_nan
                end.
Proof.
  destruct x as [s | s | | s m e]; try (destruct s; reflexivity); try reflexivity.
  unfold F64.sub, SFsub. rewrite Z.sub_diag. reflexivity.
Qed.

(** X8: [Sub i i] is the zero Interval when the seconds of [i] are a
    finite number; when they are an infinity or NaN its months and days
    are zero and its seconds are NaN. *)
Theorem Sub_self (i : Interval) :
  Sub i i = mkInterval 0 0 (match Seconds i with
                            | S754_zero _ | S754_finite _ _ _ => F64.zero
                            | _ => S754_nan
                            end).
Proof.
  unfold Sub. simpl. now rewrite sub_diag, !Z.sub_diag.
Qed.

(** X9: adding the zero Interval, or taking it away, leaves the months
    and days of an Interval of the type as they are and gives seconds
    equal to its own, when these are not NaN; the Interval itself need not
    come back, the seconds -0 become +0. *)
Theorem Add_Sub_zero (i : Interval) :
  wf i ->
  Months (Add i zeroInterval) = Months i /\ Days (Add i zeroInterval) = Days i /\
  Months (Sub i zeroInterval) = Months i /\ Days (Sub i zeroInterval) = Days i /\
  Seconds (Sub i zeroInterval) = Seconds i /\
  (Seconds i <> S754_nan ->
   Equal (Add i zeroInterval) i = true /\ Equal (Sub i zeroInterval) i = true) /\
  Add (mkInterval 0 0 (S754_zero true)) zeroInterval = zeroInterval.
Proof.
  intros [Hm Hd]. unfold Add, Sub, zeroInterval, Int.wrap32. simpl.
  rewrite !Z.add_0_r, !Z.sub_0_r, !(wrap_id 32) by (assumption || lia).
  assert (Es : F64.sub (Seconds i) F64.zero = Seconds i)
    by (destruct (Seconds i) as [[ | ] | | | ]; reflexivity).
  repeat split; try assumption.
  - unfold Equal. simpl. rewrite !Z.eqb_refl. simpl.
    destruct (Seconds i) as [s | s | | s m e]; try congruence.
    + destruct s; reflexivity.
    + destruct s; reflexivity.
    + change (F64.eqb (S754_finite s m e) (S754_finite s m e) = true).
      unfold F64.eqb, SFeqb. now rewrite SFcompare_refl_finite.
  - unfold Equal. simpl. rewrite !Z.eqb_refl, Es. simpl.
    unfold F64.eqb, SFeqb. now rewrite SFcompare_refl.
Qed.

Lemma Add_Sub_zero_witness :
  Months (Add (mkInterval (-5) 7 (of_Z 3)) zeroInterval) = (-5)%Z.
Proof.
  apply (Add_Sub_zero (mkInterval (-5) 7 (of_Z 3))).
  unfold wf, Int.in_range. simpl. lia.
Defined.

(** * Normalized components *)

(** X10: the years and months of [NormalYears] and [NormalMonths] add up
    to the months of the Interval; the months are less than a year and
    have the sign of the Interval's months, so that -14 months are -1
    year and -2 months; neither division can overflow. *)
Theorem NormalYears_NormalMonths (i : Interval) :
  (Months i = 12 * NormalYears i + NormalMonths i)%Z /\
  (- 12 < NormalMonths i < 12)%Z /\
  (0 <= Months i -> 0 <= NormalYears i /\ 0 <= NormalMonths i)%Z /\
  (Months i <= 0 -> NormalYears i <= 0 /\ NormalMonths i <= 0)%Z /\
  (wf i -> Int.in_range 32 (NormalYears i) /\ Int.in_range 32 (NormalMonths i)).
Proof.
  unfold NormalYears, NormalMonths, wf, Int.in_range.
  change (2 ^ (32 - 1))%Z with 2147483648%Z.
  repeat split; intros; Z.to_euclidean_division_equations; lia.
Qed.

(** X11: when the seconds have an int64 value, [NormalSeconds] is the
    remainder of that whole number of seconds by 60, with its sign: it
    lies strictly between -60 and 60, and the conversion to int8 changes
    nothing. *)
Theorem NormalSeconds_bound (i : Interval) (t : Z) :
  F64.trunc (Seconds i) = Some t -> Int.in_range 64 t ->
  NormalSeconds i = Some (Z.rem t 60) /\
  (- 60 < Z.rem t 60 < 60)%Z /\
  (t = 60 * Z.quot t 60 + Z.rem t 60)%Z.
Proof.
  intros Ht Hr. unfold NormalSeconds. rewrite (to_int_trunc 64 _ t Ht Hr).
  assert (B : (- 60 < Z.rem t 60 < 60)%Z)
    by (Z.to_euclidean_division_equations; lia).
  assert (E : (t = 60 * Z.quot t 60 + Z.rem t 60)%Z) by apply Z.quot_rem'.
  repeat split; try lia.
  f_equal. apply wrap_id; [lia | ]. unfold Int.in_range. simpl. lia.
Qed.

Lemma NormalSeconds_bound_witness :
  NormalSeconds (mkInterval 0 0 (of_Z (-125))) = Some (Z.rem (-125) 60).
Proof.
  apply (NormalSeconds_bound (mkInterval 0 0 (of_Z (-125))) (-125)).
  - vm_compute. reflexivity.
  - unfold Int.in_range. simpl. lia.
Defined.
(** * Texts *)

Lemma length_app (a b : string) : length (a ++ b) = (length a + length b)%nat.
Proof. induction a as [ | c a IH]; simpl; [reflexivity | now rewrite IH]. Qed.

Lemma app_assoc (a b c : string) : (a ++ b) ++ c = a ++ (b ++ c).
Proof. induction a as [ | x a IH]; simpl; [reflexivity | now rewrite IH]. Qed.

Lemma app_empty_r (a : string) : a ++ "" = a.
Proof. induction a as [ | x a IH]; simpl; [reflexivity | now rewrite IH]. Qed.

Lemma drop_app (a b : string) : Bytes.drop (length a) (a ++ b) = b.
Proof. induction a as [ | c a IH]; simpl; [now destruct b | exact IH]. Qed.

Lemma substring_app (a b : string) : substring 0 (length a) (a ++ b) = a.
Proof.
  induction a as [ | c a IH]; simpl.
  - now destruct b.
  - now rewrite IH.
Qed.

Lemma substring_skip (pre s : string) (n : nat) :
  substring (length pre) n (pre ++ s) = substring 0 n s.
Proof. induction pre as [ | c pre IH]; simpl; [reflexivity | exact IH]. Qed.

Lemma prefix_app (a b : string) : prefix a (a ++ b) = true.
Proof.
  induction a as [ | c a IH]; simpl; [now destruct b | ].
  destruct (ascii_dec c c); [exact IH | congruence].
Qed.

(** ** Positions in a text *)

Lemma at_start (input : string) : at_pos input 0 input.
Proof. now exists "". Qed.

Lemma at_drop input pos rest : at_pos input pos rest -> Bytes.drop pos input = rest.
Proof. intros (pre & -> & <-). apply drop_app. Qed.

Lemma at_length input pos rest :
  at_pos input pos rest -> length input = (pos + length rest)%nat.
Proof. intros (pre & -> & <-). apply length_app. Qed.

Lemma at_step input pos a rest :
  at_pos input pos (a ++ rest) -> at_pos input (pos + length a) rest.
Proof.
  intros (pre & -> & <-). exists (pre ++ a).
  now rewrite app_assoc, length_app.
Qed.

Lemma at_slice input pos a rest :
  at_pos input pos (a ++ rest) -> Bytes.slice input pos (pos + length a) = a.
Proof.
  intros (pre & -> & <-). unfold Bytes.slice.
  replace (length pre + length a - length pre)%nat with (length a) by lia.
  rewrite substring_skip. apply substring_app.
Qed.

Lemma at_end input pos : at_pos input pos "" -> pos = length input.
Proof. intros H. apply at_length in H. simpl in H. lia. Qed.

(** ** Numbers in decimal *)

Lemma string_of_uint_digits (u : Decimal.uint) :
  all_digits (NilEmpty.string_of_uint u) = true.
Proof. induction u; simpl; auto. Qed.

Lemma digits_val_acc (u : Decimal.uint) (acc : positive) :
  digits_val (Z.pos acc) (NilEmpty.string_of_uint u)
  = Some (Z.pos (Pos.of_uint_acc u acc)).
Proof.
  revert acc. induction u as [ | u IH | u IH | u IH | u IH | u IH | u IH | u IH
                             | u IH | u IH | u IH ]; intros acc;
    [reflexivity | .. ];
    cbn [digits_val NilEmpty.string_of_uint Pos.of_uint_acc];
    match goal with
    | |- (if Bytes.is_digit ?c then _ else _) = _ =>
        change (Bytes.is_digit c) with true; cbv iota
    end;
    match goal with
    | |- digits_val ?z _ = Some (Z.pos (Pos.of_uint_acc _ ?p)) =>
        replace z with (Z.pos p)
          by (set (d := Bytes.digit_val _); vm_compute in d; subst d; lia)
    end; apply IH.
Qed.

Lemma digits_val_uint (u : Decimal.uint) :
  digits_val 0 (NilEmpty.string_of_uint u) = Some (Z.of_N (Pos.of_uint u)).
Proof.
  induction u as [ | u IH | u IH | u IH | u IH | u IH | u IH | u IH
                 | u IH | u IH | u IH ];
    [reflexivity | exact IH | .. ];
    cbn [digits_val NilEmpty.string_of_uint Pos.of_uint];
    match goal with
    | |- (if Bytes.is_digit ?c then _ else _) = _ =>
        change (Bytes.is_digit c) with true; cbv iota
    end;
    match goal with
    | |- digits_val ?z _ = Some (Z.of_N (N.pos (Pos.of_uint_acc _ ?p))) =>
        change z with (Z.pos p)
    end; apply digits_val_acc.
Qed.

(** The digits of a positive number: not empty, and read back as the
    number. *)
Lemma pos_text (p : positive) :
  exists c ds, NilZero.string_of_uint (Pos.to_uint p) = String.String c ds /\
               Bytes.is_digit c = true /\ all_digits ds = true /\
               digits_val 0 (String.String c ds) = Some (Z.pos p).
Proof.
  pose proof (DecimalPos.Unsigned.to_uint_nonnil p) as Hn.
  pose proof (DecimalPos.Unsigned.of_to p) as Hof.
  pose proof (string_of_uint_digits (Pos.to_uint p)) as Hd.
  pose proof (digits_val_uint (Pos.to_uint p)) as Hv.
  rewrite Hof in Hv.
  assert (E : NilZero.string_of_uint (Pos.to_uint p)
              = NilEmpty.string_of_uint (Pos.to_uint p))
    by (destruct (Pos.to_uint p); [congruence | reflexivity ..]).
  rewrite E.
  destruct (NilEmpty.string_of_uint (Pos.to_uint p)) as [ | c ds] eqn:Es.
  - destruct (Pos.to_uint p); simpl in Es; congruence.
  - exists c, ds. simpl in Hd. apply andb_prop in Hd as [Hc Hds]. auto.
Qed.

Lemma digit_not_sign (c : ascii) :
  Bytes.is_digit c = true ->
  Ascii.eqb c "+" = false /\ Ascii.eqb c "-" = false /\ Ascii.eqb c " " = false /\
  Bytes.is_sign c = false.
Proof.
  destruct c as [[ | ] [ | ] [ | ] [ | ] [ | ] [ | ] [ | ] [ | ]];
    vm_compute; intros H; try discriminate H; repeat split.
Qed.

(** What [FormatInt] writes: a digit, or a minus sign and a digit, and
    then digits only. *)
Lemma FormatInt_shape (z : Z) :
  exists f0 tl, FormatInt z = String.String f0 tl /\ all_digits tl = true /\
    (Bytes.is_digit f0 = true \/ (f0 = "-"%char /\ tl <> "")).
Proof.
  unfold FormatInt. destruct z as [ | p | p]; simpl.
  - exists "0"%char, "". auto.
  - destruct (pos_text p) as (c & ds & E & Hc & Hds & _).
    exists c, ds. auto.
  - destruct (pos_text p) as (c & ds & E & Hc & Hds & _).
    exists "-"%char, (String.String c ds). rewrite E. simpl. rewrite Hc, Hds.
    repeat split; auto. right. split; congruence.
Qed.

(** A number written by [FormatInt] is read back by [ParseInt], when it
    fits the size. *)
Lemma ParseInt_FormatInt (z bits : Z) :
  (0 < bits)%Z -> Int.in_range bits z -> ParseInt (FormatInt z) bits = (z, None).
Proof.
  intros Hb [Hlo Hhi]. unfold FormatInt, ParseInt.
  destruct z as [ | p | p]; simpl Z.to_int; cbn [NilZero.string_of_int].
  - cbn. destruct (Z.leb_spec (2 ^ (bits - 1)) 0); [lia | reflexivity].
  - destruct (pos_text p) as (c & ds & E & Hc & Hds & Hv). rewrite E.
    destruct (digit_not_sign c Hc) as (-> & -> & _).
    rewrite Hv. simpl.
    destruct (Z.leb_spec (2 ^ (bits - 1)) (Z.pos p)); [lia | reflexivity].
  - destruct (pos_text p) as (c & ds & E & Hc & Hds & Hv). rewrite E.
    change (Ascii.eqb "-" "+") with false. change (Ascii.eqb "-" "-") with true.
    cbv iota. rewrite Hv. simpl.
    destruct (Z.ltb_spec (2 ^ (bits - 1)) (Z.pos p)); [lia | reflexivity].
Qed.

Lemma nonempty_FormatInt (z : Z) : nonempty (FormatInt z) = true.
Proof. destruct (FormatInt_shape z) as (f0 & tl & -> & _). reflexivity. Qed.

(** ** The matcher on numbers *)

Lemma run_Plus input r1 pos caps k :
  run input (Plus r1) pos caps k = plus_loop input r1 k (length input) pos caps.
Proof. reflexivity. Qed.

Lemma run_Cat input r1 r2 pos caps k :
  run input (Cat r1 r2) pos caps k
  = run input r1 pos caps (fun pos' caps' => run input r2 pos' caps' k).
Proof. reflexivity. Qed.

Lemma run_Opt input r1 pos caps k :
  run input (Opt r1) pos caps k
  = match run input r1 pos caps k with
    | Some c => Some c
    | None => k pos caps
    end.
Proof. reflexivity. Qed.

Lemma run_Class_at input p pos caps k c rest :
  at_pos input pos (String.String c rest) ->
  run input (Class p) pos caps k = if p c then k (S pos) caps else None.
Proof. intros H. simpl. now rewrite (at_drop _ _ _ H). Qed.

Lemma run_Class_end input p pos caps k :
  at_pos input pos "" -> run input (Class p) pos caps k = None.
Proof. intros H. simpl. now rewrite (at_drop _ _ _ H). Qed.

Lemma run_Lit_at input lit pos caps k rest :
  at_pos input pos rest ->
  run input (Lit lit) pos caps k
  = if prefix lit rest then k (pos + length lit)%nat caps else None.
Proof. intros H. simpl. now rewrite (at_drop _ _ _ H). Qed.

Lemma at_S input pos c rest :
  at_pos input pos (String.String c rest) -> at_pos input (S pos) rest.
Proof.
  intros H. replace (S pos) with (pos + length (String.String c ""))%nat
    by (simpl; lia).
  apply at_step. exact H.
Qed.

Lemma plus_loop_no_digit input k fuel pos caps rest :
  at_pos input pos rest -> no_digit_ahead rest ->
  plus_loop input (Class Bytes.is_digit) k fuel pos caps = None.
Proof.
  intros Hat Hnd. destruct fuel; simpl; rewrite (at_drop _ _ _ Hat);
    destruct rest as [ | c rest]; try reflexivity; simpl in Hnd; now rewrite Hnd.
Qed.

(** The loop of [[0-9]+] on digits: when the continuation fails after
    every shorter run of digits, the loop gives what the continuation
    gives after all of them. *)
Lemma plus_loop_digits (ds : string) :
  forall input k fuel pos caps rest,
  at_pos input pos (ds ++ rest) -> ds <> "" -> all_digits ds = true ->
  no_digit_ahead rest -> (length ds <= S fuel)%nat ->
  (forall j, (0 < j < length ds)%nat -> k (pos + j)%nat caps = None) ->
  plus_loop input (Class Bytes.is_digit) k fuel pos caps
  = k (pos + length ds)%nat caps.
Proof.
  induction ds as [ | c ds IH]; intros input k fuel pos caps rest Hat Hne Hd Hnd Hf Hk;
    [congruence | ].
  simpl in Hd. apply andb_prop in Hd as [Hc Hds].
  change (String.String c ds ++ rest) with (String.String c (ds ++ rest)) in Hat.
  pose proof (at_S _ _ _ _ Hat) as Hat'.
  assert (E1 : (pos + length (String.String c ds) = S pos + length ds)%nat)
    by (simpl; lia).
  destruct fuel as [ | fuel]; simpl plus_loop; rewrite (at_drop _ _ _ Hat), Hc.
  - simpl in Hf. assert (length ds = 0)%nat by lia.
    destruct ds; [ | discriminate]. simpl. f_equal. lia.
  - assert (Hlt : Nat.ltb pos (S pos) = true) by (apply Nat.ltb_lt; lia).
    rewrite Hlt. rewrite E1.
    destruct ds as [ | d ds'].
    + rewrite (plus_loop_no_digit _ _ _ _ _ _ Hat' Hnd). simpl. f_equal. lia.
    + rewrite (IH input k fuel (S pos) caps rest Hat'); try assumption;
        try congruence.
      * destruct (k (S pos + length (String.String d ds'))%nat caps) eqn:Ek;
          [reflexivity | ].
        replace (S pos) with (pos + 1)%nat by lia. apply Hk. simpl. lia.
      * simpl in *. lia.
      * intros j Hj. replace (S pos + j)%nat with (pos + S j)%nat by lia.
        apply Hk. simpl in *. lia.
Qed.

Lemma drop_app_add (pre s : string) (j : nat) :
  Bytes.drop (length pre + j) (pre ++ s) = Bytes.drop j s.
Proof. induction pre as [ | c pre IH]; simpl; [reflexivity | exact IH]. Qed.

Lemma suffix_digit (tl R : string) (j : nat) :
  all_digits tl = true -> (j < length tl)%nat ->
  exists d r, Bytes.drop j (tl ++ R) = String.String d r /\ Bytes.is_digit d = true.
Proof.
  revert j. induction tl as [ | c tl IH]; intros j Hd Hj; simpl in *; [lia | ].
  apply andb_prop in Hd as [Hc Htl].
  destruct j as [ | j].
  - exists c, (tl ++ R). auto.
  - apply IH; [assumption | lia].
Qed.

Lemma inside_number input pos f0 tl R j :
  at_pos input pos (String.String f0 tl ++ R) -> all_digits tl = true ->
  (0 < j < S (length tl))%nat ->
  exists d r, Bytes.drop (pos + j) input = String.String d r /\
              Bytes.is_digit d = true.
Proof.
  intros (pre & -> & <-) Hd Hj. rewrite drop_app_add.
  destruct j as [ | j]; [lia | ]. simpl. apply suffix_digit; [assumption | lia].
Qed.

Lemma prefix_space_digit lit' d r :
  Bytes.is_digit d = true -> prefix (String.String " " lit') (String.String d r) = false.
Proof.
  intros Hd.
  change ((if ascii_dec " " d then prefix lit' r else false) = false).
  destruct (ascii_dec " " d) as [<- | ]; [discriminate Hd | reflexivity].
Qed.

(** A number and the text after it, as the groups of [re] read them:
    the number is taken whole, or the group does not match. *)
Lemma run_number_lit input pos z R n lit' caps K :
  at_pos input pos (FormatInt z ++ R) -> no_digit_ahead R ->
  run input (Cat (Group n signed_int) (Lit (String.String " " lit'))) pos caps K
  = if prefix (String.String " " lit') R
    then K (pos + length (FormatInt z) + length (String.String " " lit'))%nat
           ((n, FormatInt z) :: caps)
    else None.
Proof.
  intros Hat Hnd.
  set (lit := String.String " " lit').
  set (k := fun (pos' : nat) (caps' : captures) =>
              run input (Lit lit) pos' ((n, Bytes.slice input pos pos') :: caps') K).
  change (run input (Cat (Group n signed_int) (Lit lit)) pos caps K)
    with (run input signed_int pos caps k).
  assert (Hfull : k (pos + length (FormatInt z))%nat caps
                  = if prefix lit R
                    then K (pos + length (FormatInt z) + length lit)%nat
                           ((n, FormatInt z) :: caps)
                    else None).
  { unfold k. rewrite (run_Lit_at _ _ _ _ _ R (at_step _ _ _ _ Hat)).
    now rewrite (at_slice _ _ _ _ Hat). }
  rewrite <- Hfull. clear Hfull.
  destruct (FormatInt_shape z) as (f0 & tl & E & Htl & Hf0).
  rewrite E in *.
  assert (Hin : forall j, (0 < j < S (length tl))%nat -> k (pos + j)%nat caps = None).
  { intros j Hj. destruct (inside_number _ _ _ _ _ j Hat Htl Hj) as (d & r & Ed & Hd).
    unfold k. cbn [run]. rewrite Ed. unfold lit. now rewrite prefix_space_digit. }
  pose proof (at_length _ _ _ Hat) as Hlen. rewrite length_app in Hlen.
  change (String.String f0 tl ++ R) with (String.String f0 (tl ++ R)) in Hat.
  unfold signed_int.
  rewrite run_Cat, run_Opt, (run_Class_at _ _ _ _ _ _ _ Hat), !run_Plus.
  destruct Hf0 as [Hdig | [-> Hne]].
  - destruct (digit_not_sign f0 Hdig) as (_ & _ & _ & ->).
    change (String.String f0 (tl ++ R)) with (String.String f0 tl ++ R) in Hat.
    apply (plus_loop_digits (String.String f0 tl) input k (length input) pos caps R);
      try assumption.
    + congruence.
    + simpl. now rewrite Hdig, Htl.
    + simpl in *. lia.
  - change (Bytes.is_sign "-") with true. cbv iota.
    pose proof (at_S _ _ _ _ Hat) as Hat'.
    assert (E1 : (pos + length (String.String "-" tl) = S pos + length tl)%nat)
      by (simpl; lia).
    rewrite E1.
    rewrite (plus_loop_digits tl input k (length input) (S pos) caps R);
      try assumption.
    + destruct (k (S pos + length tl)%nat caps) eqn:Ek; [reflexivity | ].
      apply (plus_loop_no_digit _ _ _ _ _ _ Hat). reflexivity.
    + simpl in *. lia.
    + intros j Hj. replace (S pos + j)%nat with (pos + S j)%nat by lia.
      apply Hin. lia.
Qed.

(** ** The matcher on the units of a text *)

Lemma re_stages (i : Interval) : re = Cat Bol (stage (date_units i)).
Proof. reflexivity. Qed.

Lemma run_NoGroup input r1 pos caps k :
  run input (NoGroup r1) pos caps k = run input r1 pos caps k.
Proof. reflexivity. Qed.

Lemma run_Group input n r1 pos caps k :
  run input (Group n r1) pos caps k
  = run input r1 pos caps
      (fun pos' caps' => k pos' ((n, Bytes.slice input pos pos') :: caps')).
Proof. reflexivity. Qed.

Lemma run_signed_int_none input pos caps k rest :
  at_pos input pos rest ->
  match rest with
  | String.String c _ => Bytes.is_digit c = false /\ Bytes.is_sign c = false
  | EmptyString => True
  end ->
  run input signed_int pos caps k = None.
Proof.
  intros Hat Hc. unfold signed_int. rewrite run_Cat, run_Opt.
  destruct rest as [ | c rest].
  - rewrite (run_Class_end _ _ _ _ _ Hat), run_Plus.
    now apply (plus_loop_no_digit _ _ _ _ _ _ Hat).
  - destruct Hc as [Hd Hs].
    rewrite (run_Class_at _ _ _ _ _ _ _ Hat), Hs, run_Plus.
    now apply (plus_loop_no_digit _ _ _ _ _ _ Hat).
Qed.

(** A unit of the pattern at a number: the unit is taken, when its text
    follows the number, and passed over otherwise. *)
Lemma run_unit_group input pos z R n lit0 caps rk k :
  at_pos input pos (FormatInt z ++ R) -> no_digit_ahead R ->
  run input (Cat (unit_group n (String.String " " lit0)) rk) pos caps k
  = if prefix (String.String " " lit0) R
    then match run input rk
                 (pos + length (FormatInt z) + length (String.String " " lit0))%nat
                 ((n, FormatInt z) :: caps) k with
         | Some c => Some c
         | None => run input rk pos caps k
         end
    else run input rk pos caps k.
Proof.
  intros Hat Hnd. unfold unit_group.
  rewrite run_Cat, run_Opt, run_NoGroup.
  rewrite (run_number_lit input pos z R n lit0 caps _ Hat Hnd).
  destruct (prefix _ R); reflexivity.
Qed.

(** A unit of the pattern at the end of the text is passed over. *)
Lemma run_unit_group_end input pos n lit caps rk k :
  at_pos input pos "" ->
  run input (Cat (unit_group n lit) rk) pos caps k = run input rk pos caps k.
Proof.
  intros Hat. unfold unit_group.
  rewrite run_Cat, run_Opt, run_NoGroup, run_Cat, run_Group.
  now rewrite (run_signed_int_none _ _ _ _ _ Hat).
Qed.

Lemma run_space_yes input pos T caps rk k :
  at_pos input pos (" " ++ T) ->
  run input (Cat (Opt (Lit " ")) rk) pos caps k
  = match run input rk (pos + 1)%nat caps k with
    | Some c => Some c
    | None => run input rk pos caps k
    end.
Proof.
  intros Hat. rewrite run_Cat, run_Opt, (run_Lit_at _ _ _ _ _ _ Hat), prefix_app.
  reflexivity.
Qed.

Lemma run_space_no input pos T caps rk k :
  at_pos input pos T -> prefix " " T = false ->
  run input (Cat (Opt (Lit " ")) rk) pos caps k = run input rk pos caps k.
Proof.
  intros Hat Hp. now rewrite run_Cat, run_Opt, (run_Lit_at _ _ _ _ _ _ Hat), Hp.
Qed.

(** The time of day is passed over at the end of the text, where the
    pattern ends. *)
Lemma run_stage_end input pos caps k :
  at_pos input pos "" ->
  run input (Cat (Opt time_group) Eol) pos caps k = k (length input) caps.
Proof.
  intros Hat. rewrite run_Cat, run_Opt. unfold time_group.
  rewrite run_NoGroup, run_Cat, run_Opt, run_Group.
  rewrite (run_Class_end _ _ _ _ _ Hat).
  rewrite run_Cat, run_Group. unfold digits. rewrite run_Plus.
  rewrite (plus_loop_no_digit _ _ _ _ _ _ Hat) by exact I.
  cbn [run]. rewrite (at_end _ _ Hat), Nat.eqb_refl. reflexivity.
Qed.

Lemma FormatInt_no_space (z : Z) (R : string) : prefix " " (FormatInt z ++ R) = false.
Proof.
  destruct (FormatInt_shape z) as (f0 & tl & -> & _ & [Hd | [-> _]]).
  - apply prefix_space_digit. exact Hd.
  - reflexivity.
Qed.

Lemma units_text_none (l : list unit) : has_units l = false -> units_text l = "".
Proof.
  induction l as [ | [[n lit] z] l IH]; simpl; [reflexivity | ].
  intros H. apply orb_false_elim in H as [Hz Hl].
  apply negb_false_iff in Hz. rewrite Hz. now apply IH.
Qed.

Lemma units_text_some (l : list unit) :
  has_units l = true ->
  exists n lit z S, In (n, lit, z) l /\ units_text l = FormatInt z ++ lit ++ S.
Proof.
  induction l as [ | [[n lit] z] l IH]; simpl; [discriminate | ].
  intros H. destruct (z =? 0)%Z eqn:Ez.
  - simpl in H. destruct (IH H) as (n' & lit' & z' & S & Hin & E).
    exists n', lit', z', S. auto.
  - eexists n, lit, z, _. split; [left; reflexivity | reflexivity].
Qed.

Lemma well_separated_space (l : list unit) n lit z :
  well_separated l -> In (n, lit, z) l -> exists lit0, lit = String.String " " lit0.
Proof.
  induction l as [ | [[n' lit'] z'] l IH]; simpl; [tauto | ].
  intros (Hs & _ & Hl) [E | Hin].
  - injection E as <- <- <-. exact Hs.
  - now apply IH.
Qed.

(** The units of a text are matched one after the other, each number in
    the group of its unit. *)
Lemma run_stage (l : list unit) :
  well_separated l ->
  forall input pos caps,
  at_pos input pos (units_text l) ->
  run input (stage l) pos caps (whole_match input)
  = Some ((0%nat, input) :: units_caps l caps).
Proof.
  induction l as [ | [[n lit] z] l IH]; intros Hws input pos caps Hat.
  - cbn [stage units_caps]. rewrite (run_stage_end _ _ _ _ Hat).
    unfold whole_match, Bytes.slice. rewrite Nat.sub_0_r.
    replace input with (input ++ "") at 2 by apply app_empty_r.
    now rewrite substring_app.
  - destruct Hws as ((lit0 & ->) & Hsep & Hws).
    cbn [stage units_text units_caps] in *.
    destruct (z =? 0)%Z eqn:Ez.
    + destruct (has_units l) eqn:Hu.
      * destruct (units_text_some l Hu) as (n' & lit' & z' & S & Hin & E).
        rewrite E in Hat.
        destruct (well_separated_space l n' lit' z' Hws Hin) as (lit1 & ->).
        rewrite (run_unit_group _ _ _ _ _ _ _ _ _ Hat) by reflexivity.
        rewrite (Hsep _ _ _ S Hin).
        rewrite (run_space_no _ _ _ _ _ _ Hat (FormatInt_no_space _ _)).
        apply IH; [assumption | now rewrite E].
      * rewrite (units_text_none l Hu) in Hat.
        rewrite (run_unit_group_end _ _ _ _ _ _ _ Hat).
        rewrite (run_space_no _ _ _ _ _ _ Hat) by reflexivity.
        apply IH; [assumption | now rewrite (units_text_none l Hu)].
    + set (S := if has_units l then " " ++ units_text l else "") in *.
      rewrite (run_unit_group _ _ _ _ _ _ _ _ _ Hat) by reflexivity.
      rewrite prefix_app.
      pose proof (at_step _ _ _ _ Hat) as Hat1.
      pose proof (at_step _ _ _ _ Hat1) as Hat2.
      unfold S in *. destruct (has_units l) eqn:Hu.
      * rewrite (run_space_yes _ _ _ _ _ _ Hat2).
        change (" " ++ units_text l) with (" " ++ "" ++ units_text l) in Hat2.
        pose proof (at_step _ _ " " _ Hat2) as Hat3.
        simpl length in Hat3 at 3. simpl app in Hat3.
        now rewrite (IH Hws _ _ _ Hat3).
      * rewrite (run_space_no _ _ _ _ _ _ Hat2) by reflexivity.
        rewrite <- (units_text_none l Hu) in Hat2.
        now rewrite (IH Hws _ _ _ Hat2).
Qed.

(** ** Intervals without seconds, written and read back *)

Lemma date_units_separated (i : Interval) : well_separated (date_units i).
Proof.
  unfold date_units. cbn [well_separated].
  repeat split; try (eexists; reflexivity);
    intros n' lit' z' S Hin; simpl in Hin;
    repeat (destruct Hin as [Hin | Hin];
            [injection Hin as <- <- <-; reflexivity | ]);
    contradiction.
Qed.

Lemma Find_dates (i : Interval) :
  FindStringSubmatch re (units_text (date_units i))
  = Some (map (fun n => match lookup n ((0%nat, units_text (date_units i))
                                          :: units_caps (date_units i) []) with
                        | Some t => t
                        | None => ""
                        end) (seq 0 8)).
Proof.
  unfold FindStringSubmatch.
  rewrite run_Group, (re_stages i), run_Cat.
  cbn [run]. cbn [Nat.eqb].
  change (fun pos' caps' => Some ((0%nat, Bytes.slice ?s 0 pos') :: caps'))
    with (whole_match (units_text (date_units i))).
  rewrite (run_stage _ (date_units_separated i) _ 0%nat [] (at_start _)).
  reflexivity.
Qed.

Lemma slice_trailing (X : string) :
  Bytes.slice (X ++ " ") 0 (length (X ++ " ") - 1) = X.
Proof.
  unfold Bytes.slice. rewrite length_app. simpl length.
  replace (length X + 1 - 1 - 0)%nat with (length X) by lia.
  apply substring_app.
Qed.

Lemma eqb_zero (x : float64) :
  F64.eqb x F64.zero = true -> exists s, x = S754_zero s.
Proof.
  destruct x as [s | s | | s m e]; try discriminate.
  - intros _. now exists s.
  - destruct s; discriminate.
  - destruct s; discriminate.
Qed.

Lemma String_dates (i : Interval) :
  F64.eqb (Seconds i) F64.zero = true -> has_units (date_units i) = true ->
  String i = Some (units_text (date_units i)).
Proof.
  intros Hz Hu. destruct (eqb_zero _ Hz) as [s Hs].
  assert (Hh : NormalHours i = Some 0%Z)
    by (unfold NormalHours; rewrite Hs; destruct s; reflexivity).
  assert (Hm : NormalMinutes i = Some 0%Z)
    by (unfold NormalMinutes; rewrite Hh, Hs; destruct s; reflexivity).
  assert (Hlt : F64.ltb (Seconds i) F64.zero = false)
    by (rewrite Hs; destruct s; reflexivity).
  assert (Hnz : ((Months i =? 0)%Z && (Days i =? 0)%Z)%bool = false).
  { destruct (Z.eqb_spec (Months i) 0) as [E0 | ]; [ | reflexivity].
    destruct (Z.eqb_spec (Days i) 0) as [E1 | ]; [ | reflexivity].
    unfold has_units, date_units, NormalYears, NormalMonths in Hu.
    rewrite E0, E1 in Hu. discriminate Hu. }
  unfold String. rewrite Hnz, Hlt. cbv zeta. cbn [andb]. rewrite Hh, Hm, Hz.
  cbn [negb]. f_equal.
  unfold has_units, date_units in Hu. cbn [existsb snd] in Hu.
  unfold date_units. cbn [units_text has_units existsb snd].
  destruct (NormalYears i =? 0)%Z, (NormalMonths i =? 0)%Z, (Days i =? 0)%Z;
    cbn [negb orb andb] in *; try discriminate Hu;
    match goal with
    | |- Bytes.slice ?str _ _ = ?X =>
        replace str with (X ++ " ")
          by (rewrite ?app_assoc, ?app_empty_r; reflexivity)
    end; apply slice_trailing.
Qed.

Lemma wrap32_id (z : Z) : Int.in_range 32 z -> Int.wrap32 z = z.
Proof. apply wrap_id. lia. Qed.

Lemma Parse_dates (i : Interval) :
  wf i ->
  Parse (units_text (date_units i)) = (mkInterval (Months i) (Days i) F64.zero, None).
Proof.
  intros [Hm Hd]. unfold Parse. rewrite Find_dates.
  cbn [map seq List.length Nat.eqb negb].
  unfold date_units. cbn [units_caps units_text].
  assert (Hy : Int.in_range 32 (NormalYears i) /\ Int.in_range 32 (NormalYears i * 12)
               /\ Int.in_range 32 (NormalMonths i)
               /\ (Months i = NormalYears i * 12 + NormalMonths i)%Z).
  { unfold NormalYears, NormalMonths, Int.in_range in *.
    change (2 ^ (32 - 1))%Z with 2147483648%Z in *.
    repeat split; Z.to_euclidean_division_equations; lia. }
  destruct Hy as (Hy & Hy12 & Hmon & Hsum).
  assert (H32 : (0 < 32)%Z) by lia.
  destruct (Z.eqb_spec (NormalYears i) 0) as [Ey | Ey],
           (Z.eqb_spec (NormalMonths i) 0) as [Em | Em],
           (Z.eqb_spec (Days i) 0) as [Ed | Ed];
    cbn [lookup Nat.eqb];
    unfold fields, andThen, years, months, days, hours, minutes, seconds, fix_sign,
           negativeTime, part;
    cbn [nth nonempty String.eqb];
    rewrite ?nonempty_FormatInt, ?(ParseInt_FormatInt _ 32 H32) by assumption;
    cbn [Months Days Seconds zeroInterval];
    rewrite ?(wrap32_id (NormalYears i)), ?(wrap32_id (NormalMonths i)),
            ?(wrap32_id (Days i)) by assumption;
    rewrite ?(wrap32_id (NormalYears i * 12)) by assumption;
    rewrite ?Z.add_0_l;
    rewrite ?(wrap32_id (NormalMonths i)) by assumption;
    rewrite <- ?Hsum; rewrite ?(wrap32_id (Months i)) by assumption;
    unfold zeroInterval; f_equal; f_equal; lia.
Qed.

(** X12: an Interval of the type whose seconds are zero is written by
    [String] as a text that [Parse] reads back without error, as the same
    months and days and the seconds +0. *)
Theorem String_Parse_dates (i : Interval) :
  wf i -> F64.eqb (Seconds i) F64.zero = true ->
  exists text, String i = Some text /\
               Parse text = (mkInterval (Months i) (Days i) F64.zero, None).
Proof.
  intros Hwf Hz. destruct (has_units (date_units i)) eqn:Hu.
  - exists (units_text (date_units i)).
    split; [now apply String_dates | now apply Parse_dates].
  - exists "00:00:00". unfold has_units, date_units in Hu.
    cbn [existsb snd] in Hu.
    apply orb_false_elim in Hu as [Hy Hu]. apply orb_false_elim in Hu as [Hm Hu].
    apply orb_false_elim in Hu as [Hd _].
    apply negb_false_iff, Z.eqb_eq in Hy, Hm, Hd.
    assert (Hmon : Months i = 0%Z).
    { unfold NormalYears, NormalMonths in *.
      Z.to_euclidean_division_equations. lia. }
    split.
    + unfold String. now rewrite Hmon, Hd, Hz.
    + rewrite Hmon, Hd. vm_compute. reflexivity.
Qed.

Lemma String_Parse_dates_witness :
  exists text, String (mkInterval (-14) 3 (S754_zero true)) = Some text /\
               Parse text = (mkInterval (-14) 3 F64.zero, None).
Proof.
  apply (String_Parse_dates (mkInterval (-14) 3 (S754_zero true))).
  - unfold wf, Int.in_range. simpl. lia.
  - reflexivity.
Defined.
(** * Durations and times *)

Lemma binary_round_aux_opp (s : bool) (m e : Z) (l : location) :
  binary_round_aux F64.prec F64.emax (negb s) m e l
  = SFopp (binary_round_aux F64.prec F64.emax s m e l).
Proof.
  unfold binary_round_aux.
  destruct (shr_fexp _ _ m e l) as [mrs' e'].
  destruct (shr_fexp _ _ _ e' loc_Exact) as [mrs'' e''].
  destruct (shr_m mrs''); try reflexivity.
  destruct (e'' <=? F64.emax - F64.prec)%Z; reflexivity.
Qed.

Lemma SFopp_involutive (x : float64) : SFopp (SFopp x) = x.
Proof. destruct x as [[] | [] | | [] m e]; reflexivity. Qed.

Lemma binary_round_opp (s : bool) (m : positive) (e : Z) :
  binary_round F64.prec F64.emax (negb s) m e
  = SFopp (binary_round F64.prec F64.emax s m e).
Proof.
  unfold binary_round. destruct (shl_align _ _ _) as [mz ez].
  apply binary_round_aux_opp.
Qed.

Lemma binary_normalize_opp (z e : Z) :
  z <> 0%Z ->
  binary_normalize F64.prec F64.emax (- z) e false
  = SFopp (binary_normalize F64.prec F64.emax z e false).
Proof.
  destruct z as [ | p | p]; [congruence | | ]; intros _;
    unfold binary_normalize; cbn [Z.opp].
  - apply (binary_round_opp false).
  - rewrite (binary_round_opp false). now rewrite SFopp_involutive.
Qed.

Lemma of_Z_opp (z : Z) : z <> 0%Z -> of_Z (- z) = F64.neg (of_Z z).
Proof. intros H. now apply binary_normalize_opp. Qed.

Lemma div_opp_l (x y : float64) : F64.div (F64.neg x) y = F64.neg (F64.div x y).
Proof.
  destruct x as [sx | sx | | sx mx ex], y as [sy | sy | | sy my ey];
    try (destruct sx, sy; reflexivity); try reflexivity.
  unfold F64.div, F64.neg, SFdiv, SFopp.
  destruct (SFdiv_core_binary _ _ _ _ _ _) as [[mz ez] lz].
  replace (xorb (negb sx) sy) with (negb (xorb sx sy)) by now destruct sx, sy.
  apply binary_round_aux_opp.
Qed.

(** A difference of two floats is the opposite of the difference the
    other way round, or both are +0. *)
Lemma sub_antisym (x y : float64) :
  F64.sub x y = F64.neg (F64.sub y x) \/
  (F64.sub x y = F64.zero /\ F64.sub y x = F64.zero).
Proof.
  destruct x as [sx | sx | | sx mx ex], y as [sy | sy | | sy my ey];
    try (destruct sx, sy; simpl; auto; fail); try (simpl; auto; fail).
  unfold F64.sub, SFsub. rewrite (Z.min_comm ey ex).
  set (X := cond_Zopp sx _). set (Y := cond_Zopp sy _).
  destruct (Z.eq_dec (Y - X) 0) as [E | E].
  - right. replace (X - Y)%Z with 0%Z by lia. rewrite E. auto.
  - left. replace (X - Y)%Z with (- (Y - X))%Z by lia.
    now apply binary_normalize_opp.
Qed.

(** X13: the difference of two times is the opposite of their difference
    the other way round: the seconds of [Diff from to] are those of
    [Diff to from] with the other sign, or both are +0; the months and
    days are zero. *)
Theorem Diff_antisym (from to : Z) :
  Months (Diff from to) = 0%Z /\ Days (Diff from to) = 0%Z /\
  (Seconds (Diff from to) = F64.neg (Seconds (Diff to from)) \/
   (Seconds (Diff from to) = F64.zero /\ Seconds (Diff to from) = F64.zero)).
Proof.
  repeat split. unfold Diff. cbn [Seconds].
  destruct (sub_antisym (of_Z to) (of_Z from)) as [E | [E1 E2]].
  - left. rewrite E. apply div_opp_l.
  - right. rewrite E1, E2. split; reflexivity.
Qed.

(** X14: [FromDuration] of the opposite duration has the opposite
    seconds, and no months or days, for every duration but the least
    one, whose opposite (in int64) is itself; the duration 0 gives the
    zero Interval. *)
Theorem FromDuration_opp (d : Z) :
  Int.in_range 64 d ->
  Months (FromDuration d) = 0%Z /\ Days (FromDuration d) = 0%Z /\
  (d <> 0%Z -> d <> (- 2 ^ 63)%Z ->
   Seconds (FromDuration (Int.wrap64 (- d))) = F64.neg (Seconds (FromDuration d))) /\
  (d = (- 2 ^ 63)%Z -> FromDuration (Int.wrap64 (- d)) = FromDuration d) /\
  FromDuration 0 = zeroInterval.
Proof.
  intros Hr. split; [reflexivity | split; [reflexivity | split; [ | split]]].
  - intros Hd Hmin. unfold Int.wrap64. rewrite wrap_id.
    + unfold FromDuration. cbn [Seconds].
      rewrite (of_Z_opp d Hd). apply div_opp_l.
    + lia.
    + unfold Int.in_range in *. change (2 ^ (64 - 1))%Z with (2 ^ 63)%Z in *. lia.
  - intros ->. reflexivity.
  - reflexivity.
Qed.

Lemma FromDuration_opp_witness :
  Seconds (FromDuration (Int.wrap64 (- (-1500000000))))
  = F64.neg (Seconds (FromDuration (-1500000000))).
Proof.
  apply (FromDuration_opp (-1500000000)).
  - unfold Int.in_range. simpl. lia.
  - lia.
  - lia.
Defined.

(** * Mul *)

Lemma digits_iter_xO (m d : positive) :
  digits2_pos (Pos.iter xO m d) = (digits2_pos m + d)%positive.
Proof.
  induction d as [ | d IH] using Pos.peano_ind.
  - simpl. now rewrite Pos.add_1_r.
  - rewrite Pos.iter_succ. simpl. now rewrite IH, Pos.add_succ_r.
Qed.

Lemma iter_xO_value (m d : positive) :
  Z.pos (Pos.iter xO m d) = (Z.pos m * 2 ^ Z.pos d)%Z.
Proof.
  induction d as [ | d IH] using Pos.peano_ind.
  - simpl. lia.
  - rewrite Pos.iter_succ, Pos2Z.inj_xO, IH, Pos2Z.inj_succ, Z.pow_succ_r by lia.
    ring.
Qed.

Lemma digits2_size (p : positive) : digits2_pos p = Pos.size p.
Proof. induction p; simpl; congruence. Qed.

Lemma digits_bound (p : positive) (n : Z) :
  (Z.pos p < 2 ^ n)%Z -> (0 <= n)%Z -> (Z.pos (digits2_pos p) <= n)%Z.
Proof.
  intros Hp Hn. rewrite digits2_size.
  pose proof (Pos.size_le p) as Hle.
  assert (H2 : (2 ^ Z.pos (Pos.size p) <= 2 * Z.pos p)%Z).
  { rewrite <- Pos2Z.inj_pow. change (2 * Z.pos p)%Z with (Z.pos p~0). lia. }
  destruct (Z.le_gt_cases (Z.pos (Pos.size p)) n) as [ | Hgt]; [assumption | ].
  assert (2 ^ (n + 1) <= 2 ^ Z.pos (Pos.size p))%Z
    by (apply Z.pow_le_mono_r; lia).
  rewrite Z.pow_add_r in * by lia. lia.
Qed.

(** Rounding leaves a float that needs none as it is. *)
Lemma binary_round_aux_canonical (s : bool) (m : positive) (e : Z) :
  canonical_mantissa F64.prec F64.emax m e = true ->
  (e <= F64.emax - F64.prec)%Z ->
  binary_round_aux F64.prec F64.emax s (Z.pos m) e loc_Exact = S754_finite s m e.
Proof.
  unfold canonical_mantissa. intros Hc He. apply Z.eqb_eq in Hc.
  unfold binary_round_aux, shr_fexp. cbn [Zdigits2 shr_record_of_loc].
  rewrite Hc, Z.sub_diag. cbn [shr shr_m loc_of_shr_record round_nearest_even].
  cbn [Zdigits2 shr_record_of_loc]. rewrite Hc, Z.sub_diag. cbn [shr shr_m].
  apply Z.leb_le in He. now rewrite He.
Qed.

(** The float of a whole number of at most 53 bits: a mantissa of 53
    bits that needs no rounding, with the value of the number. *)
Lemma binary_round_small (s : bool) (p : positive) :
  (Z.pos (digits2_pos p) <= 53)%Z ->
  exists m e,
    binary_round F64.prec F64.emax s p 0 = S754_finite s m e /\
    canonical_mantissa F64.prec F64.emax m e = true /\
    (- 52 <= e <= 0)%Z /\
    (Z.pos m = Z.pos p * 2 ^ (- e))%Z.
Proof.
  intros Hd. unfold binary_round.
  assert (Hf : fexp F64.prec F64.emax (Z.pos (digits2_pos p) + 0)
               = (Z.pos (digits2_pos p) - 53)%Z).
  { unfold fexp, emin, F64.prec, F64.emax. lia. }
  rewrite Hf. unfold shl_align.
  destruct (Z.pos (digits2_pos p) - 53 - 0)%Z as [ | k | k] eqn:Ek; try lia.
  - exists p, 0%Z. split; [ | split; [ | split]]; try lia.
    + apply binary_round_aux_canonical; [ | unfold F64.emax, F64.prec; lia].
      unfold canonical_mantissa, fexp, emin, F64.prec, F64.emax.
      apply Z.eqb_eq. lia.
    + unfold canonical_mantissa, fexp, emin, F64.prec, F64.emax.
      apply Z.eqb_eq. lia.
  - assert (Hc : canonical_mantissa F64.prec F64.emax (Pos.iter xO p k)
                   (Z.pos (digits2_pos p) - 53) = true).
    { unfold canonical_mantissa, fexp, emin, F64.prec, F64.emax.
      rewrite digits_iter_xO. apply Z.eqb_eq. lia. }
    exists (Pos.iter xO p k), (Z.pos (digits2_pos p) - 53)%Z.
    split; [ | split; [exact Hc | split; [lia | ]]].
    + apply binary_round_aux_canonical; [exact Hc | ].
      unfold F64.emax, F64.prec. lia.
    + rewrite iter_xO_value. f_equal. f_equal. lia.
Qed.

Lemma trunc_scaled (s : bool) (m p : positive) (e : Z) :
  (- 52 <= e <= 0)%Z -> (Z.pos m = Z.pos p * 2 ^ (- e))%Z ->
  F64.trunc (S754_finite s m e) = Some (if s then Z.neg p else Z.pos p).
Proof.
  intros He Hm. unfold F64.trunc. destruct e as [ | k | k]; try lia.
  - change (- 0)%Z with 0%Z in Hm. rewrite Z.pow_0_r in Hm.
    assert (m = p) as -> by lia.
    rewrite Z.pow_0_r, Z.mul_1_r. now destruct s.
  - change (- Z.neg k)%Z with (Z.pos k) in Hm. rewrite Hm.
    rewrite Z.div_mul by (apply Z.pow_nonzero; lia). now destruct s.
Qed.

(** Multiplying by 1 or by -1 (the mantissa 2^52 at the exponent -52)
    changes the sign only. *)
Lemma mul_unit (s s1 : bool) (m : positive) (e : Z) :
  canonical_mantissa F64.prec F64.emax m e = true ->
  (e <= F64.emax - F64.prec)%Z ->
  F64.mul (S754_finite s m e) (S754_finite s1 4503599627370496 (-52))
  = S754_finite (xorb s s1) m e.
Proof.
  intros Hc He. unfold F64.mul, SFmul.
  replace (m * 4503599627370496)%positive with (Pos.iter xO m 52)
    by (rewrite Pos.mul_comm; reflexivity).
  pose proof Hc as Hc'. unfold canonical_mantissa in Hc'. apply Z.eqb_eq in Hc'.
  assert (Hs : shr_fexp F64.prec F64.emax (Z.pos (Pos.iter xO m 52)) (e + -52)
                 loc_Exact
               = ({| shr_m := Z.pos m; shr_r := false; shr_s := false |}, e)).
  { unfold shr_fexp. cbn [Zdigits2 shr_record_of_loc].
    rewrite digits_iter_xO.
    replace (Z.pos (digits2_pos m + 52) + (e + -52))%Z
      with (Z.pos (digits2_pos m) + e)%Z by lia.
    rewrite Hc'. replace (e - (e + -52))%Z with 52%Z by lia.
    unfold shr. f_equal; try reflexivity; lia. }
  unfold binary_round_aux. rewrite Hs.
  cbn [shr_m loc_of_shr_record round_nearest_even Zdigits2].
  unfold shr_fexp. cbn [Zdigits2 shr_record_of_loc].
  rewrite Hc', Z.sub_diag. cbn [shr shr_m].
  apply Z.leb_le in He. now rewrite He.
Qed.

Lemma digits_scaled (M P : positive) (k : Z) :
  (0 <= k)%Z -> (Z.pos M = Z.pos P * 2 ^ k)%Z ->
  (Z.pos (digits2_pos M) = Z.pos (digits2_pos P) + k)%Z.
Proof.
  intros Hk HM. destruct k as [ | k | k]; try lia.
  - rewrite Z.pow_0_r in HM. assert (M = P) as -> by lia. lia.
  - rewrite <- iter_xO_value in HM. injection HM as ->.
    rewrite digits_iter_xO. lia.
Qed.

Lemma digits_range (p : positive) :
  (2 ^ (Z.pos (digits2_pos p) - 1) <= Z.pos p < 2 ^ Z.pos (digits2_pos p))%Z.
Proof.
  rewrite digits2_size.
  pose proof (Pos.size_le p) as Hle. pose proof (Pos.size_gt p) as Hgt.
  assert (H2 : (2 ^ Z.pos (Pos.size p) <= 2 * Z.pos p)%Z).
  { rewrite <- Pos2Z.inj_pow. change (2 * Z.pos p)%Z with (Z.pos p~0). lia. }
  split.
  - replace (Z.pos (Pos.size p)) with (Z.pos (Pos.size p) - 1 + 1)%Z in H2 by lia.
    rewrite Z.pow_add_r in H2 by lia. lia.
  - rewrite <- Pos2Z.inj_pow. lia.
Qed.

Lemma iter_pos_iter {A : Type} (f : A -> A) (n : positive) (x : A) :
  iter_pos f n x = Pos.iter f x n.
Proof.
  revert x. induction n as [n IH | n IH | ]; intros x; simpl.
  - now rewrite !IH, !Pos.iter_swap.
  - now rewrite !IH.
  - reflexivity.
Qed.

(** Shifting right the bits that were shifted in loses nothing. *)
Lemma shr_iter_exact (n M : positive) :
  Pos.iter shr_1 {| shr_m := Z.pos (Pos.iter xO M n); shr_r := false;
                    shr_s := false |} n
  = {| shr_m := Z.pos M; shr_r := false; shr_s := false |}.
Proof.
  induction n as [ | n IH] using Pos.peano_ind.
  - reflexivity.
  - rewrite Pos.iter_succ_r, Pos.iter_succ. exact IH.
Qed.

Lemma whole_digits (s : bool) (m : positive) (e : Z) :
  canonical_mantissa F64.prec F64.emax m e = true -> (- 52 <= e)%Z ->
  Z.pos (digits2_pos m) = 53%Z.
Proof.
  unfold canonical_mantissa, fexp, emin, F64.prec, F64.emax.
  intros Hc He. apply Z.eqb_eq in Hc. lia.
Qed.

(** The product of two floats that hold whole numbers holds their
    product, when it has at most 53 bits. *)
Lemma mul_whole (s1 s2 : bool) (p1 p2 : positive) (x y : float64) :
  whole s1 p1 x -> whole s2 p2 y ->
  (Z.pos (digits2_pos (p1 * p2)) <= 53)%Z ->
  whole (xorb s1 s2) (p1 * p2) (F64.mul x y).
Proof.
  intros (m1 & e1 & -> & Hc1 & He1 & Hm1) (m2 & e2 & -> & Hc2 & He2 & Hm2) HD.
  pose proof (whole_digits s1 m1 e1 Hc1 (proj1 He1)) as Hd1.
  pose proof (whole_digits s2 m2 e2 Hc2 (proj1 He2)) as Hd2.
  remember (Z.pos (digits2_pos (p1 * p2))) as D eqn:ED.
  assert (HD0 : (0 < D)%Z) by lia.
  remember (- e1 - e2)%Z as K eqn:EK.
  assert (HK : (Z.pos (m1 * m2) = Z.pos (p1 * p2) * 2 ^ K)%Z).
  { rewrite !Pos2Z.inj_mul, Hm1, Hm2, EK.
    replace (- e1 - e2)%Z with (- e1 + - e2)%Z by lia.
    rewrite Z.pow_add_r by lia. ring. }
  pose proof (digits_scaled _ _ K ltac:(lia) HK) as HsK. rewrite <- ED in HsK.
  assert (HDK : (105 <= D + K)%Z).
  { pose proof (digits_range m1) as R1. pose proof (digits_range m2) as R2.
    pose proof (digits_range (m1 * m2)) as R3.
    rewrite Hd1 in R1. rewrite Hd2 in R2. rewrite HsK in R3.
    destruct (Z.le_gt_cases 105 (D + K)) as [ | Hlt]; [assumption | ].
    assert (Hp : (2 ^ (D + K) <= 2 ^ 104)%Z) by (apply Z.pow_le_mono_r; lia).
    assert (E : (2 ^ 104 = 2 ^ (53 - 1) * 2 ^ (53 - 1))%Z) by reflexivity.
    rewrite E in Hp. rewrite Pos2Z.inj_mul in R3.
    assert (Hq : (2 ^ (53 - 1) * 2 ^ (53 - 1) <= Z.pos m1 * Z.pos m2)%Z)
      by (apply Z.mul_le_mono_nonneg; lia).
    lia. }
  assert (HM : exists M, (Z.pos M = Z.pos (p1 * p2) * 2 ^ (53 - D))%Z).
  { pose proof (Z.mul_pos_pos _ _ (Pos2Z.is_pos (p1 * p2))
                  (Z.pow_pos_nonneg 2 (53 - D) ltac:(lia) ltac:(lia))) as Hpos.
    destruct (Z.pos (p1 * p2) * 2 ^ (53 - D))%Z as [ | M | M] eqn:E; try lia.
    now exists M. }
  destruct HM as (M & HM).
  pose proof (digits_scaled _ _ (53 - D) ltac:(lia) HM) as HdM.
  rewrite <- ED in HdM.
  assert (Hn : exists n, (Z.pos n = D - 53 + K)%Z).
  { destruct (D - 53 + K)%Z as [ | n | n] eqn:E; try lia. now exists n. }
  destruct Hn as (n & Hn).
  assert (Hmm : (m1 * m2 = Pos.iter xO M n)%positive).
  { apply Pos2Z.inj. rewrite iter_xO_value, HK, HM, Hn, <- Z.mul_assoc.
    rewrite <- Z.pow_add_r by lia. f_equal. f_equal. lia. }
  assert (HcM : canonical_mantissa F64.prec F64.emax M (D - 53) = true).
  { unfold canonical_mantissa, fexp, emin, F64.prec, F64.emax.
    apply Z.eqb_eq. lia. }
  exists M, (D - 53)%Z. split; [ | split; [exact HcM | split; [lia | ]]].
  - unfold F64.mul, SFmul, binary_round_aux.
    assert (Hs : shr_fexp F64.prec F64.emax (Z.pos (m1 * m2)) (e1 + e2) loc_Exact
                 = ({| shr_m := Z.pos M; shr_r := false; shr_s := false |},
                    (D - 53)%Z)).
    { unfold shr_fexp. cbn [Zdigits2 shr_record_of_loc]. rewrite HsK.
      replace (fexp F64.prec F64.emax (D + K + (e1 + e2)) - (e1 + e2))%Z
        with (Z.pos n) by (unfold fexp, emin, F64.prec, F64.emax; lia).
      unfold shr. rewrite iter_pos_iter, Hmm, shr_iter_exact. f_equal. lia. }
    rewrite Hs.
    cbn [shr_m loc_of_shr_record round_nearest_even Zdigits2].
    unfold shr_fexp. cbn [Zdigits2 shr_record_of_loc].
    apply Z.eqb_eq in HcM. unfold canonical_mantissa in HcM.
    rewrite HcM, Z.sub_diag. cbn [shr shr_m].
    replace (D - 53 <=? F64.emax - F64.prec)%Z with true; [reflexivity | ].
    symmetry. apply Z.leb_le. unfold F64.emax, F64.prec. lia.
  - rewrite HM. f_equal. f_equal. lia.
Qed.

Lemma of_Z_whole (s : bool) (p : positive) :
  (Z.pos p < 2 ^ 53)%Z ->
  whole s p (F64.of_Z (if s then Z.neg p else Z.pos p)).
Proof.
  intros Hp. apply digits_bound in Hp; [ | lia].
  destruct (binary_round_small s p Hp) as (m & e & E & Hc & He & Hm).
  exists m, e. split; [ | auto].
  rewrite <- E. now destruct s.
Qed.

Lemma trunc_whole (s : bool) (p : positive) (x : float64) :
  whole s p x -> F64.trunc x = Some (if s then Z.neg p else Z.pos p).
Proof.
  intros (m & e & -> & _ & He & Hm). now apply trunc_scaled.
Qed.

Lemma of_Z_cases (k : Z) :
  (- 2 ^ 53 < k < 2 ^ 53)%Z ->
  (k = 0%Z /\ F64.of_Z k = S754_zero false) \/
  (exists (s : bool) (p : positive),
      k = (if s then Z.neg p else Z.pos p) /\ whole s p (F64.of_Z k)).
Proof.
  intros Hk. destruct k as [ | p | p].
  - left. now split.
  - right. exists false, p. split; [reflexivity | ].
    apply (of_Z_whole false). lia.
  - right. exists true, p. split; [reflexivity | ].
    apply (of_Z_whole true). lia.
Qed.

(** The conversion of a product of whole numbers that fits the type. *)
Lemma to_int_mul (bits a k : Z) :
  (0 < bits <= 53)%Z ->
  (- 2 ^ 53 < a < 2 ^ 53)%Z -> (- 2 ^ 53 < k < 2 ^ 53)%Z ->
  Int.in_range bits (a * k) ->
  F64.to_int bits (F64.mul (F64.of_Z a) (F64.of_Z k)) = Some (a * k)%Z.
Proof.
  intros Hb Ha Hk Hr.
  assert (Hz : F64.to_int bits (S754_zero false) = Some 0%Z
               /\ F64.to_int bits (S754_zero true) = Some 0%Z).
  { unfold F64.to_int, F64.trunc, Int.in_rangeb.
    assert (0 < 2 ^ (bits - 1))%Z by (apply Z.pow_pos_nonneg; lia).
    replace (- 2 ^ (bits - 1) <=? 0)%Z with true by (symmetry; apply Z.leb_le; lia).
    replace (0 <? 2 ^ (bits - 1))%Z with true by (symmetry; apply Z.ltb_lt; lia).
    now split. }
  destruct (of_Z_cases a Ha) as [[-> ->] | (s1 & p1 & Ea & Wa)];
    destruct (of_Z_cases k Hk) as [[-> Ek] | (s2 & p2 & Ek & Wk)].
  - rewrite Ek. apply Hz.
  - destruct Wk as (m & e & -> & _). simpl. destruct s2; apply Hz.
  - rewrite Ek, Z.mul_0_r. destruct Wa as (m & e & -> & _). simpl.
    destruct s1; apply Hz.
  - assert (Hp : (a * k = if xorb s1 s2 then Z.neg (p1 * p2) else Z.pos (p1 * p2))%Z).
    { rewrite Ea, Ek. now destruct s1, s2. }
    assert (Hd : (Z.pos (digits2_pos (p1 * p2)) <= 53)%Z).
    { apply digits_bound; [ | lia]. unfold Int.in_range in Hr.
      assert (2 ^ (bits - 1) < 2 ^ 53)%Z by (apply Z.pow_lt_mono_r; lia).
      destruct (xorb s1 s2); lia. }
    pose proof (trunc_whole _ _ _ (mul_whole _ _ _ _ _ _ Wa Wk Hd)) as Ht.
    unfold F64.to_int. rewrite Ht, <- Hp.
    replace (Int.in_rangeb bits (a * k)) with true; [reflexivity | ].
    symmetry. unfold Int.in_rangeb. unfold Int.in_range in Hr.
    apply andb_true_intro. split; [apply Z.leb_le | apply Z.ltb_lt]; lia.
Qed.

Lemma wf_small (z : Z) : Int.in_range 32 z -> (- 2 ^ 53 < z < 2 ^ 53)%Z.
Proof. unfold Int.in_range. change (2 ^ (32 - 1))%Z with 2147483648%Z. lia. Qed.

(** X15: multiplying by a whole number: when the multiplier is
    [float64(k)] for a whole [k] of at most 53 bits, and the products of
    the months and of the days by [k] fit int32, [Mul] gives exactly these
    products (the detour through float64 loses nothing), together with the
    float product of the seconds. *)
Theorem Mul_whole (i : Interval) (k : Z) :
  wf i -> (- 2 ^ 53 < k < 2 ^ 53)%Z ->
  Int.in_range 32 (Months i * k) -> Int.in_range 32 (Days i * k) ->
  Mul i (F64.of_Z k)
  = Some (mkInterval (Months i * k) (Days i * k)
                     (F64.mul (Seconds i) (F64.of_Z k))).
Proof.
  intros [Hm Hd] Hk Pm Pd. unfold Mul.
  rewrite (to_int_mul 32 (Months i) k) by (auto using wf_small; lia).
  rewrite (to_int_mul 32 (Days i) k) by (auto using wf_small; lia).
  reflexivity.
Qed.

Lemma Mul_whole_witness :
  Mul (mkInterval 7 (-3) (F64.of_ratio 3 2)) (F64.of_Z (-4))
  = Some (mkInterval (-28) 12 (F64.of_Z (-6))).
Proof.
  rewrite (Mul_whole (mkInterval 7 (-3) (F64.of_ratio 3 2)) (-4)).
  - reflexivity.
  - split; unfold Int.in_range; simpl; lia.
  - lia.
  - unfold Int.in_range; simpl; lia.
  - unfold Int.in_range; simpl; lia.
Defined.

Lemma mul_one (x : float64) :
  valid_binary F64.prec F64.emax x = true -> F64.mul x (F64.of_Z 1) = x.
Proof.
  intros Hv. change (F64.of_Z 1) with (S754_finite false 4503599627370496 (-52)).
  destruct x as [s | s | | s m e];
    [simpl; now rewrite xorb_false_r | simpl; now rewrite xorb_false_r | reflexivity | ].
  simpl in Hv. apply andb_prop in Hv. destruct Hv as [Hc He]. apply Z.leb_le in He.
  change (SFmul F64.prec F64.emax ?a ?b) with (F64.mul a b).
  rewrite mul_unit by assumption. now rewrite xorb_false_r.
Qed.

Lemma mul_neg_one (x : float64) :
  valid_binary F64.prec F64.emax x = true ->
  F64.mul x (F64.of_Z (-1)) = F64.neg x.
Proof.
  intros Hv. change (F64.of_Z (-1)) with (S754_finite true 4503599627370496 (-52)).
  destruct x as [s | s | | s m e];
    [simpl; now rewrite xorb_true_r | simpl; now rewrite xorb_true_r | reflexivity | ].
  simpl in Hv. apply andb_prop in Hv. destruct Hv as [Hc He]. apply Z.leb_le in He.
  change (SFmul F64.prec F64.emax ?a ?b) with (F64.mul a b).
  rewrite mul_unit by assumption. now rewrite xorb_true_r.
Qed.

(** X16: multiplying by 1 changes nothing: for an Interval whose months
    and days are int32 values and whose seconds are a float64 value,
    [i.Mul(1)] is [i]. *)
Theorem Mul_one (i : Interval) :
  wf i -> valid_binary F64.prec F64.emax (Seconds i) = true ->
  Mul i (F64.of_Z 1) = Some i.
Proof.
  intros [Hm Hd] Hv. unfold Mul.
  rewrite (to_int_mul 32 (Months i) 1), (to_int_mul 32 (Days i) 1);
    rewrite ?Z.mul_1_r; auto using wf_small; try lia.
  rewrite mul_one by assumption. now destruct i.
Qed.

Lemma Mul_one_witness :
  Mul (mkInterval 7 (-3) (F64.of_ratio 3 2)) (F64.of_Z 1)
  = Some (mkInterval 7 (-3) (F64.of_ratio 3 2)).
Proof.
  apply (Mul_one (mkInterval 7 (-3) (F64.of_ratio 3 2))).
  - split; unfold Int.in_range; simpl; lia.
  - reflexivity.
Defined.

(** X17: multiplying by -1, as [SubFrom] does: each part is negated,
    unless the months or the days are the least int32, whose negation
    does not fit int32, so that the conversion back from float64 is left
    to the implementation. *)
Theorem Mul_neg_one (i : Interval) :
  wf i -> valid_binary F64.prec F64.emax (Seconds i) = true ->
  Mul i (F64.of_Z (-1))
  = if (Months i =? - 2 ^ 31)%Z || (Days i =? - 2 ^ 31)%Z then None
    else Some (mkInterval (- Months i) (- Days i) (F64.neg (Seconds i))).
Proof.
  intros [Hm Hd] Hv. unfold Mul. unfold Int.in_range in Hm, Hd.
  change (2 ^ (32 - 1))%Z with 2147483648%Z in Hm, Hd.
  change (- 2 ^ 31)%Z with (-2147483648)%Z.
  destruct (Z.eqb_spec (Months i) (-2147483648)) as [Em | Nm].
  - rewrite Em. reflexivity.
  - rewrite (to_int_mul 32 (Months i) (-1)); auto using wf_small; try lia.
    2:{ unfold Int.in_range. change (2 ^ (32 - 1))%Z with 2147483648%Z. lia. }
    destruct (Z.eqb_spec (Days i) (-2147483648)) as [Ed | Nd].
    + rewrite Ed. reflexivity.
    + rewrite (to_int_mul 32 (Days i) (-1)); auto using wf_small; try lia.
      2:{ unfold Int.in_range. change (2 ^ (32 - 1))%Z with 2147483648%Z. lia. }
      rewrite mul_neg_one by assumption. simpl.
      f_equal. f_equal; lia.
Qed.

Lemma Mul_neg_one_witness :
  Mul (mkInterval (-2147483648) 4 (F64.of_Z 5)) (F64.of_Z (-1)) = None /\
  Mul (mkInterval 7 (-3) (F64.of_ratio 3 2)) (F64.of_Z (-1))
  = Some (mkInterval (-7) 3 (F64.of_ratio (-3) 2)).
Proof.
  split.
  - apply (Mul_neg_one (mkInterval (-2147483648) 4 (F64.of_Z 5))).
    + split; unfold Int.in_range; simpl; lia.
    + reflexivity.
  - apply (Mul_neg_one (mkInterval 7 (-3) (F64.of_ratio 3 2))).
    + split; unfold Int.in_range; simpl; lia.
    + reflexivity.
Defined.

(** * DiffExtended *)

Lemma wrap32_wrap64 (z : Z) : Int.wrap32 (Int.wrap64 z) = Int.wrap32 z.
Proof.
  unfold Int.wrap32, Int.wrap64.
  destruct (wrap_spec 64 ltac:(lia) z) as [k ->].
  replace (z + k * 2 ^ 64)%Z with (z + (k * 2 ^ 32) * 2 ^ 32)%Z
    by (change (2 ^ 64)%Z with (2 ^ 32 * 2 ^ 32)%Z; ring).
  apply wrap_shift.
Qed.

Lemma wrap32_add (x y : Z) :
  Int.wrap32 (Int.wrap32 x + Int.wrap32 y) = Int.wrap32 (x + y).
Proof.
  unfold Int.wrap32.
  destruct (wrap_spec 32 ltac:(lia) x) as [k1 ->].
  destruct (wrap_spec 32 ltac:(lia) y) as [k2 ->].
  replace (x + k1 * 2 ^ 32 + (y + k2 * 2 ^ 32))%Z
    with (x + y + (k1 + k2) * 2 ^ 32)%Z by ring.
  apply wrap_shift.
Qed.

Lemma wrap32_months (y m : Z) :
  Int.wrap32 (Int.wrap64 (Int.wrap64 (Int.wrap64 y * 12) + Int.wrap64 m))
  = Int.wrap32 (y * 12 + m).
Proof.
  rewrite wrap32_wrap64. unfold Int.wrap32, Int.wrap64.
  destruct (wrap_spec 64 ltac:(lia) y) as [k1 ->].
  destruct (wrap_spec 64 ltac:(lia) ((y + k1 * 2 ^ 64) * 12)) as [k2 ->].
  destruct (wrap_spec 64 ltac:(lia) m) as [k3 ->].
  replace ((y + k1 * 2 ^ 64) * 12 + k2 * 2 ^ 64 + (m + k3 * 2 ^ 64))%Z
    with (y * 12 + m + ((k1 * 12 + k2 + k3) * 2 ^ 32) * 2 ^ 32)%Z
    by (change (2 ^ 64)%Z with (2 ^ 32 * 2 ^ 32)%Z; ring).
  apply wrap_shift.
Qed.

(** X18: differences of dates chain: the months and the days of
    [DiffExtended(a, b)] added (with [Add]) to those of
    [DiffExtended(b, c)] are the months and the days of
    [DiffExtended(a, c)], for all times, wrap-around included; and the
    difference of a time with itself is the zero Interval. *)
Theorem DiffExtended_chain (a b c : Time) :
  Months (Add (DiffExtended a b) (DiffExtended b c)) = Months (DiffExtended a c) /\
  Days (Add (DiffExtended a b) (DiffExtended b c)) = Days (DiffExtended a c) /\
  DiffExtended a a = zeroInterval.
Proof.
  split; [ | split].
  - unfold Add, DiffExtended. cbn [Months].
    rewrite !wrap32_months. fold Int.wrap32. rewrite wrap32_add. f_equal. ring.
  - unfold Add, DiffExtended. cbn [Days].
    rewrite !wrap32_wrap64. fold Int.wrap32. rewrite wrap32_add. f_equal. ring.
  - unfold DiffExtended. rewrite !Z.sub_diag. reflexivity.
Qed.

(** * Div *)

(** X19: dividing by zero (of either sign) does not stop the program,
    but the months of the result are not defined: float64 of the months
    divided by zero is an infinity or NaN, and its conversion to int32 is
    left to the implementation. *)
Theorem Div_zero (i : Interval) (s : bool) :
  wf i -> Div i (S754_zero s) = None.
Proof.
  intros [Hm _]. unfold Div.
  destruct (of_Z_cases (Months i) (wf_small _ Hm))
    as [[_ ->] | (s1 & p & _ & (m & e & -> & _))]; reflexivity.
Qed.

Lemma Div_zero_witness :
  Div (mkInterval 7 (-3) (F64.of_ratio 3 2)) (S754_zero false) = None.
Proof.
  apply (Div_zero (mkInterval 7 (-3) (F64.of_ratio 3 2)) false).
  split; unfold Int.in_range; simpl; lia.
Defined.

(** * The unit Intervals *)

(** X20: the unit Intervals agree with the rest of the package: those of
    the time part are [FromDuration] of the durations of the same name,
    a minute is 60 seconds, an hour 60 minutes and a year 12 months by
    [Mul], and they are in increasing order; a day and a month are not
    comparable, no part being converted into another. *)
Theorem Units_agree :
  FromDuration 1 = Nanosecond /\
  FromDuration 1000 = Microsecond /\
  FromDuration 1000000 = Millisecond /\
  FromDuration 1000000000 = Second /\
  FromDuration 60000000000 = Minute /\
  FromDuration 3600000000000 = Hour /\
  Mul Second (F64.of_Z 60) = Some Minute /\
  Mul Minute (F64.of_Z 60) = Some Hour /\
  Mul Month (F64.of_Z 12) = Some Year /\
  Less Nanosecond Microsecond = true /\
  Less Microsecond Millisecond = true /\
  Less Millisecond Second = true /\
  Less Second Minute = true /\
  Less Minute Hour = true /\
  Less Month Year = true /\
  Comparable Day Month = false /\
  Comparable Hour Day = false.
Proof. repeat split; vm_compute; reflexivity. Qed.

(** * Add then Sub *)

Lemma same_value_digits (p m : positive) (a b : Z) :
  (0 <= a)%Z -> (0 <= b)%Z -> (Z.pos p * 2 ^ a = Z.pos m * 2 ^ b)%Z ->
  (Z.pos (digits2_pos p) + a = Z.pos (digits2_pos m) + b)%Z.
Proof.
  intros Ha Hb E.
  pose proof (Z.mul_pos_pos _ _ (Pos2Z.is_pos p)
                (Z.pow_pos_nonneg 2 a ltac:(lia) Ha)) as Hpos.
  destruct (Z.pos p * 2 ^ a)%Z as [ | M | M] eqn:EM; try lia.
  rewrite <- (digits_scaled M p a Ha (eq_sym EM)).
  now rewrite <- (digits_scaled M m b Hb E).
Qed.

(** Rounding a number that is a float gives this float, whatever the
    mantissa and the exponent the number comes with. *)
Lemma binary_round_exact (s : bool) (p m : positive) (e0 e : Z) :
  canonical_mantissa F64.prec F64.emax m e = true ->
  (e <= F64.emax - F64.prec)%Z -> (- 1074 <= e0)%Z ->
  (Z.pos p * 2 ^ (e0 + 1074) = Z.pos m * 2 ^ (e + 1074))%Z ->
  binary_round F64.prec F64.emax s p e0 = S754_finite s m e.
Proof.
  intros Hc He He0 E.
  pose proof Hc as Hc'. unfold canonical_mantissa in Hc'. apply Z.eqb_eq in Hc'.
  assert (Hemin : (- 1074 <= e)%Z).
  { revert Hc'. unfold fexp, emin, F64.prec, F64.emax. lia. }
  pose proof (same_value_digits p m (e0 + 1074) (e + 1074) ltac:(lia) ltac:(lia) E)
    as Hd.
  unfold binary_round.
  replace (Z.pos (digits2_pos p) + e0)%Z with (Z.pos (digits2_pos m) + e)%Z by lia.
  rewrite Hc'. unfold shl_align.
  destruct (e - e0)%Z as [ | k | k] eqn:Ek.
  - assert (e0 = e) by lia. subst e0.
    assert (p = m) as ->.
    { apply Pos2Z.inj. apply Z.mul_reg_r in E; [assumption | ].
      apply Z.pow_nonzero; lia. }
    now apply binary_round_aux_canonical.
  - assert (Hp : p = Pos.iter xO m k).
    { apply Pos2Z.inj. rewrite iter_xO_value.
      replace (e + 1074)%Z with (Z.pos k + (e0 + 1074))%Z in E by lia.
      rewrite (Z.pow_add_r 2 (Z.pos k) (e0 + 1074)), Z.mul_assoc in E by lia.
      apply Z.mul_reg_r in E; [assumption | ]. apply Z.pow_nonzero; lia. }
    subst p. unfold binary_round_aux.
    assert (Hs : shr_fexp F64.prec F64.emax (Z.pos (Pos.iter xO m k)) e0 loc_Exact
                 = ({| shr_m := Z.pos m; shr_r := false; shr_s := false |}, e)).
    { unfold shr_fexp. cbn [Zdigits2 shr_record_of_loc].
      replace (Z.pos (digits2_pos (Pos.iter xO m k)) + e0)%Z
        with (Z.pos (digits2_pos m) + e)%Z by lia.
      rewrite Hc', Ek. unfold shr.
      rewrite iter_pos_iter, shr_iter_exact. f_equal. lia. }
    rewrite Hs.
    cbn [shr_m loc_of_shr_record round_nearest_even Zdigits2].
    unfold shr_fexp. cbn [Zdigits2 shr_record_of_loc].
    rewrite Hc', Z.sub_diag. cbn [shr shr_m].
    apply Z.leb_le in He. now rewrite He.
  - assert (Hm : m = Pos.iter xO p k).
    { apply Pos2Z.inj. rewrite iter_xO_value.
      replace (e0 + 1074)%Z with (Z.pos k + (e + 1074))%Z in E by lia.
      rewrite (Z.pow_add_r 2 (Z.pos k) (e + 1074)), Z.mul_assoc in E by lia.
      apply Z.mul_reg_r in E; [auto | ]. apply Z.pow_nonzero; lia. }
    change (shift_pos k p) with (Pos.iter xO p k). rewrite <- Hm.
    now apply binary_round_aux_canonical.
Qed.

Lemma binary_normalize_exact (z e0 : Z) (sz s : bool) (m : positive) (e : Z) :
  valid_binary F64.prec F64.emax (S754_finite s m e) = true ->
  (- 1074 <= e0)%Z ->
  (z * 2 ^ (e0 + 1074) = cond_Zopp s (Z.pos m) * 2 ^ (e + 1074))%Z ->
  binary_normalize F64.prec F64.emax z e0 sz = S754_finite s m e.
Proof.
  intros Hv He0 E. simpl in Hv. apply andb_prop in Hv. destruct Hv as [Hc He].
  apply Z.leb_le in He.
  assert (Hemin : (- 1074 <= e)%Z).
  { unfold canonical_mantissa in Hc. apply Z.eqb_eq in Hc. revert Hc.
    unfold fexp, emin, F64.prec, F64.emax. lia. }
  assert (H0 : (0 < 2 ^ (e0 + 1074))%Z) by (apply Z.pow_pos_nonneg; lia).
  assert (H1 : (0 < 2 ^ (e + 1074))%Z) by (apply Z.pow_pos_nonneg; lia).
  destruct z as [ | p | p], s; cbn [cond_Zopp] in E; try nia.
  - cbn [binary_normalize]. apply binary_round_exact; auto.
  - cbn [binary_normalize]. apply binary_round_exact; auto.
    rewrite <- Pos2Z.opp_pos in E. lia.
Qed.

Lemma shl_align_value (m : positive) (e ez : Z) :
  (ez <= e)%Z -> (Z.pos (fst (shl_align m e ez)) = Z.pos m * 2 ^ (e - ez))%Z.
Proof.
  intros H. unfold shl_align.
  destruct (ez - e)%Z as [ | k | k] eqn:Ek; try lia; cbn [fst].
  - replace (e - ez)%Z with 0%Z by lia. lia.
  - change (shift_pos k m) with (Pos.iter xO m k). rewrite iter_xO_value.
    f_equal. f_equal. lia.
Qed.

Lemma cond_Zopp_mul (s : bool) (z k : Z) :
  (cond_Zopp s z * k = cond_Zopp s (z * k))%Z.
Proof. destruct s; simpl; ring. Qed.

Lemma exact_value_finite (s : bool) (m : positive) (e v : Z) :
  exact_value (S754_finite s m e) = Some v ->
  (- 1074 <= e)%Z /\ v = (cond_Zopp s (Z.pos m) * 2 ^ (e + 1074))%Z.
Proof.
  unfold exact_value. destruct (Z.leb_spec (- 1074) e) as [Hle | Hlt];
    intros Hv; [ | discriminate].
  injection Hv as <-. auto.
Qed.

(** Taking [y] away from an exact sum [x + y] gives [x] back; a zero
    comes back as a zero, of either sign. *)
Lemma sub_add_exact (x y : float64) :
  valid_binary F64.prec F64.emax x = true ->
  valid_binary F64.prec F64.emax y = true ->
  exact_sum x y ->
  match x with
  | S754_zero _ => exists s, F64.sub (F64.add x y) y = S754_zero s
  | _ => F64.sub (F64.add x y) y = x
  end.
Proof.
  intros Vx Vy (vx & vy & Ex & Ey & Er).
  destruct x as [sx | sx | | sx mx ex]; try discriminate Ex.
  - destruct y as [sy | sy | | sy my ey]; try discriminate Ey.
    + destruct sx, sy; eexists; reflexivity.
    + exists false.
      change (F64.add (S754_zero sx) (S754_finite sy my ey))
        with (S754_finite sy my ey).
      apply (sub_diag (S754_finite sy my ey)).
  - destruct y as [sy | sy | | sy my ey]; try discriminate Ey.
    + reflexivity.
    + apply exact_value_finite in Ex, Ey.
      destruct Ex as [Hex ->], Ey as [Hey ->].
      destruct (F64.add (S754_finite sx mx ex) (S754_finite sy my ey))
        as [sr | sr | | sr mr er] eqn:R; try discriminate Er.
      * injection Er as Er.
        change (F64.sub (S754_zero sr) (S754_finite sy my ey))
          with (S754_finite (negb sy) my ey).
        transitivity (binary_normalize F64.prec F64.emax
                        (cond_Zopp (negb sy) (Z.pos my)) ey false).
        -- symmetry. apply binary_normalize_exact; auto.
        -- apply binary_normalize_exact; auto.
           destruct sy; cbn [negb cond_Zopp] in *; lia.
      * apply exact_value_finite in Er. destruct Er as [Her Er].
        unfold F64.sub, SFsub. apply binary_normalize_exact; auto; [lia | ].
        rewrite Z.mul_sub_distr_r, !cond_Zopp_mul, !shl_align_value by lia.
        rewrite <- !Z.mul_assoc, <- !Z.pow_add_r by lia.
        replace (er - Z.min er ey + (Z.min er ey + 1074))%Z with (er + 1074)%Z by lia.
        replace (ey - Z.min er ey + (Z.min er ey + 1074))%Z with (ey + 1074)%Z by lia.
        rewrite <- !cond_Zopp_mul. lia.
Qed.

(** When the sum of two numbers is a float, [add] gives this float. *)
Lemma add_representable (sx sy s : bool) (mx my m : positive) (ex ey e : Z) :
  valid_binary F64.prec F64.emax (S754_finite s m e) = true ->
  (- 1074 <= ex)%Z -> (- 1074 <= ey)%Z ->
  (cond_Zopp sx (Z.pos mx) * 2 ^ (ex + 1074)
   + cond_Zopp sy (Z.pos my) * 2 ^ (ey + 1074)
   = cond_Zopp s (Z.pos m) * 2 ^ (e + 1074))%Z ->
  F64.add (S754_finite sx mx ex) (S754_finite sy my ey) = S754_finite s m e.
Proof.
  intros Hv Hex Hey E. unfold F64.add, SFadd.
  apply binary_normalize_exact; auto; [lia | ].
  rewrite Z.mul_add_distr_r, !cond_Zopp_mul, !shl_align_value by lia.
  rewrite <- !Z.mul_assoc, <- !Z.pow_add_r by lia.
  replace (ex - Z.min ex ey + (Z.min ex ey + 1074))%Z with (ex + 1074)%Z by lia.
  replace (ey - Z.min ex ey + (Z.min ex ey + 1074))%Z with (ey + 1074)%Z by lia.
  rewrite <- !cond_Zopp_mul. exact E.
Qed.

Lemma add_cancel (sx sy : bool) (mx my : positive) (ex ey : Z) :
  (- 1074 <= ex)%Z -> (- 1074 <= ey)%Z ->
  (cond_Zopp sx (Z.pos mx) * 2 ^ (ex + 1074)
   + cond_Zopp sy (Z.pos my) * 2 ^ (ey + 1074) = 0)%Z ->
  F64.add (S754_finite sx mx ex) (S754_finite sy my ey) = S754_zero false.
Proof.
  intros Hex Hey E. unfold F64.add, SFadd.
  set (X := cond_Zopp sx _). set (Y := cond_Zopp sy _).
  assert (H0 : ((X + Y) * 2 ^ (Z.min ex ey + 1074) = 0)%Z).
  { unfold X, Y.
    rewrite Z.mul_add_distr_r, !cond_Zopp_mul, !shl_align_value by lia.
    rewrite <- !Z.mul_assoc, <- !Z.pow_add_r by lia.
    replace (ex - Z.min ex ey + (Z.min ex ey + 1074))%Z with (ex + 1074)%Z by lia.
    replace (ey - Z.min ex ey + (Z.min ex ey + 1074))%Z with (ey + 1074)%Z by lia.
    rewrite <- !cond_Zopp_mul. exact E. }
  apply Z.mul_eq_0_l in H0; [ | apply Z.pow_nonzero; lia].
  rewrite H0. reflexivity.
Qed.

Lemma whole_value (s : bool) (p : positive) (x : float64) :
  whole s p x ->
  exists m e, x = S754_finite s m e /\ (- 1074 <= e)%Z /\
              valid_binary F64.prec F64.emax x = true /\
              (cond_Zopp s (Z.pos m) * 2 ^ (e + 1074)
               = cond_Zopp s (Z.pos p) * 2 ^ 1074)%Z.
Proof.
  intros (m & e & -> & Hc & He & Hm). exists m, e.
  split; [reflexivity | split; [lia | split]].
  - cbn [valid_binary]. unfold bounded. rewrite Hc. apply Z.leb_le.
    unfold F64.emax, F64.prec. lia.
  - rewrite !cond_Zopp_mul. f_equal. rewrite Hm, <- Z.mul_assoc.
    rewrite <- Z.pow_add_r by lia. f_equal. f_equal. lia.
Qed.

(** Whole numbers of at most 53 bits are added without rounding. *)
Lemma add_whole (za zb : Z) :
  (- 2 ^ 53 < za < 2 ^ 53)%Z -> (- 2 ^ 53 < zb < 2 ^ 53)%Z ->
  (- 2 ^ 53 < za + zb < 2 ^ 53)%Z ->
  F64.add (F64.of_Z za) (F64.of_Z zb) = F64.of_Z (za + zb).
Proof.
  intros Ha Hb Hs.
  destruct (of_Z_cases za Ha) as [[-> Ea] | (sa & pa & Ea & Wa)];
    destruct (of_Z_cases zb Hb) as [[-> Eb] | (sb & pb & Eb & Wb)].
  - reflexivity.
  - rewrite Ea, Z.add_0_l. destruct Wb as (m & e & -> & _). reflexivity.
  - rewrite Eb, Z.add_0_r. destruct Wa as (m & e & -> & _). reflexivity.
  - destruct (whole_value _ _ _ Wa) as (ma & ea & Xa & Hea & _ & Va).
    destruct (whole_value _ _ _ Wb) as (mb & eb & Xb & Heb & _ & Vb).
    assert (Za : za = cond_Zopp sa (Z.pos pa)) by (rewrite Ea; now destruct sa).
    assert (Zb : zb = cond_Zopp sb (Z.pos pb)) by (rewrite Eb; now destruct sb).
    rewrite Xa, Xb.
    destruct (of_Z_cases (za + zb) Hs) as [[E0 ->] | (ss & ps & Es & Ws)].
    + apply add_cancel; auto. rewrite Va, Vb, <- Za, <- Zb.
      rewrite <- Z.mul_add_distr_r, E0. reflexivity.
    + destruct (whole_value _ _ _ Ws) as (ms & es & Xs & Hes & Vs & Vv).
      rewrite Xs in *. apply add_representable; auto.
      rewrite Va, Vb, Vv, <- Za, <- Zb, <- Z.mul_add_distr_r. f_equal.
      rewrite Es. now destruct ss.
Qed.

Lemma of_Z_value (z : Z) :
  (- 2 ^ 53 < z < 2 ^ 53)%Z ->
  exact_value (F64.of_Z z) = Some (z * 2 ^ 1074)%Z /\
  valid_binary F64.prec F64.emax (F64.of_Z z) = true.
Proof.
  intros Hz. destruct (of_Z_cases z Hz) as [[-> ->] | (s & p & E & W)].
  - split; reflexivity.
  - destruct (whole_value _ _ _ W) as (m & e & X & He & Vv & V).
    split; [ | exact Vv]. rewrite X. unfold exact_value.
    apply Z.leb_le in He. rewrite He, V. f_equal. f_equal.
    rewrite E. now destruct s.
Qed.

Lemma exact_sum_whole (za zb : Z) :
  (- 2 ^ 53 < za < 2 ^ 53)%Z -> (- 2 ^ 53 < zb < 2 ^ 53)%Z ->
  (- 2 ^ 53 < za + zb < 2 ^ 53)%Z ->
  exact_sum (F64.of_Z za) (F64.of_Z zb).
Proof.
  intros Ha Hb Hs. exists (za * 2 ^ 1074)%Z, (zb * 2 ^ 1074)%Z.
  split; [apply of_Z_value; assumption | split; [apply of_Z_value; assumption | ]].
  rewrite add_whole by assumption. rewrite <- Z.mul_add_distr_r.
  apply of_Z_value; assumption.
Qed.

Lemma eqb_zeros (s s' : bool) : F64.eqb (S754_zero s) (S754_zero s') = true.
Proof. now destruct s, s'. Qed.

(** C5, as the code has it: [Sub (Add a b) b] has the months and the days
    of [a], also when the sums wrap around; its seconds are
    [(a.Seconds + b.Seconds) - b.Seconds] in float64.  They are the
    seconds of [a], and the whole Interval is [Equal] to [a], whenever
    the float sum [a.Seconds + b.Seconds] is exact (a zero may come back
    with the other sign): so it is for whole numbers of seconds below
    2^53, and when [b.Seconds] is a zero; an infinity also comes back
    when [b.Seconds] is a number. *)
Theorem Sub_Add_inverse (a b : Interval) :
  wf a ->
  Months (Sub (Add a b) b) = Months a /\
  Days (Sub (Add a b) b) = Days a /\
  Seconds (Sub (Add a b) b) = F64.sub (F64.add (Seconds a) (Seconds b)) (Seconds b) /\
  (forall sz, Seconds b = S754_zero sz -> Seconds a <> S754_nan ->
              Equal (Sub (Add a b) b) a = true) /\
  (valid_binary F64.prec F64.emax (Seconds a) = true ->
   valid_binary F64.prec F64.emax (Seconds b) = true ->
   exact_sum (Seconds a) (Seconds b) ->
   Equal (Sub (Add a b) b) a = true /\
   ((forall s, Seconds a <> S754_zero s) -> Sub (Add a b) b = a)) /\
  (forall za zb : Z,
      (- 2 ^ 53 < za < 2 ^ 53)%Z -> (- 2 ^ 53 < zb < 2 ^ 53)%Z ->
      (- 2 ^ 53 < za + zb < 2 ^ 53)%Z ->
      Seconds a = F64.of_Z za -> Seconds b = F64.of_Z zb ->
      Sub (Add a b) b = a) /\
  (forall s, Seconds a = S754_infinity s -> exact_value (Seconds b) <> None ->
             Sub (Add a b) b = a).
Proof.
  intros [Hm Hd].
  assert (Em : Int.wrap 32 (Int.wrap 32 (Months a + Months b) - Months b) = Months a)
    by (apply wrap_add_sub; [lia | assumption]).
  assert (Ed : Int.wrap 32 (Int.wrap 32 (Days a + Days b) - Days b) = Days a)
    by (apply wrap_add_sub; [lia | assumption]).
  assert (Eq : Sub (Add a b) b
               = mkInterval (Months a) (Days a)
                   (F64.sub (F64.add (Seconds a) (Seconds b)) (Seconds b))).
  { unfold Sub, Add, Int.wrap32. cbn [Months Days Seconds].
    now rewrite Em, Ed. }
  split; [rewrite Eq; reflexivity | ].
  split; [rewrite Eq; reflexivity | ].
  split; [rewrite Eq; reflexivity | ].
  split; [ | split; [ | split]].
  - intros sz Hz Hnan. rewrite Eq. unfold Equal. cbn [Months Days Seconds].
    rewrite !Z.eqb_refl, Hz. simpl. now apply add_sub_zero.
  - intros Va Vb Hex. pose proof (sub_add_exact _ _ Va Vb Hex) as H.
    rewrite Eq. split.
    + unfold Equal. cbn [Months Days Seconds]. rewrite !Z.eqb_refl. simpl.
      destruct (Seconds a) as [s | s | | s m e] eqn:Ea.
      * destruct H as [s' ->]. apply eqb_zeros.
      * rewrite H. now destruct s.
      * destruct Hex as (vx & vy & Ex & _). discriminate Ex.
      * rewrite H. unfold F64.eqb, SFeqb. now rewrite SFcompare_refl_finite.
    + intros Hnz. destruct a as [ma da sa]. cbn [Months Days Seconds] in *.
      destruct sa as [s | s | | s m e]; try (now rewrite H).
      now destruct (Hnz s).
  - intros za zb Ha Hb Hs Ea Eb. rewrite Eq.
    destruct a as [ma da sa]. cbn [Months Days Seconds] in *. subst sa.
    rewrite Eb. f_equal.
    rewrite add_whole by assumption.
    destruct (of_Z_cases zb Hb) as [[-> ->] | (sb & pb & Ezb & Wb)].
    + rewrite Z.add_0_r.
      destruct (of_Z_cases za Ha) as [[-> ->] | (s & p & _ & (m & e & -> & _))];
        reflexivity.
    + pose proof (exact_sum_whole za zb Ha Hb Hs) as Hex.
      pose proof (sub_add_exact _ _ (proj2 (of_Z_value za Ha))
                    (proj2 (of_Z_value zb Hb)) Hex) as H.
      rewrite add_whole in H by assumption.
      destruct (of_Z_cases za Ha) as [[-> Ez] | (s & p & _ & (m & e & Ez & _))].
      * rewrite Z.add_0_l. destruct Wb as (m & e & -> & _).
        apply (sub_diag (S754_finite sb m e)).
      * rewrite Ez in H |- *. exact H.
  - intros s Ea Hb. rewrite Eq.
    destruct a as [ma da sa]. cbn [Months Days Seconds] in *. subst sa.
    f_equal. destruct (Seconds b) as [sb | sb | | sb mb eb];
      try (now destruct Hb); reflexivity.
Qed.

Lemma Sub_Add_inverse_witness :
  Months (Sub (Add (mkInterval 2147483647 (-5) (F64.of_Z 1))
                   (mkInterval 1 7 (F64.of_Z 9007199254740990)))
              (mkInterval 1 7 (F64.of_Z 9007199254740990))) = 2147483647%Z /\
  Sub (Add (mkInterval 2147483647 (-5) (F64.of_Z 1))
           (mkInterval 1 7 (F64.of_Z 9007199254740990)))
      (mkInterval 1 7 (F64.of_Z 9007199254740990))
  = mkInterval 2147483647 (-5) (F64.of_Z 1).
Proof.
  assert (W : wf (mkInterval 2147483647 (-5) (F64.of_Z 1)))
    by (unfold wf, Int.in_range; simpl; lia).
  pose proof (Sub_Add_inverse (mkInterval 2147483647 (-5) (F64.of_Z 1))
                (mkInterval 1 7 (F64.of_Z 9007199254740990)) W)
    as (Hm & _ & _ & _ & Hex & _).
  split; [exact Hm | ].
  apply Hex.
  - reflexivity.
  - reflexivity.
  - exists (1 * 2 ^ 1074)%Z, (9007199254740990 * 2 ^ 1074)%Z.
    repeat split; vm_compute; reflexivity.
  - intros s. discriminate.
Defined.

(** C5, as stated, fails on the seconds: 1 + 2^53 is rounded to 2^53. *)
Lemma Sub_Add_not_inverse :
  wf (mkInterval 0 0 (of_Z 1)) /\
  Sub (Add (mkInterval 0 0 (of_Z 1)) (mkInterval 0 0 (of_Z 9007199254740992)))
      (mkInterval 0 0 (of_Z 9007199254740992)) = mkInterval 0 0 zero /\
  Equal (Sub (Add (mkInterval 0 0 (of_Z 1)) (mkInterval 0 0 (of_Z 9007199254740992)))
             (mkInterval 0 0 (of_Z 9007199254740992)))
        (mkInterval 0 0 (of_Z 1)) = false.
Proof.
  split; [ | split; vm_compute; reflexivity].
  unfold wf, Int.in_range. simpl. lia.
Qed.
